(** * QNET: semi-classical model matrices for Kerr-cavity networks

    A shallow embedding of [qnet/misc/kerr_model_matrices.py]:
    [_coeff_term], [get_coeffs], [model_matrices] and [prepare_sde],
    together with the properties of these functions that the
    specification of the module states.

    Numbers are exact: a Python [float] is a rational ([Qc]) and a Python
    [complex] a pair of rationals ([Cx]); rounding is not modelled.  Scalars
    of the operator algebra (Python numbers or sympy expressions) are an
    abstract type with the operations the module applies to them, and are
    identified up to Python's [==] (so [0], [0.0] and [0j] are one value).
    The operator-algebra engine ([qnet.algebra.circuit_algebra]) is an
    interface: its expression constructors are an inductive type, its
    algorithms ([expand], [simplify_scalar], [symbolic_heisenberg_eom],
    the operator product, ...) are fields of a class. *)

From Stdlib Require Import QArith Qcanon.
From stdpp Require Import base option list gmap strings sorting pretty numbers.

Close Scope Qc_scope.
Close Scope Q_scope.

(** ** Exact complex numbers *)

Record Cx : Type := mkCx { Re : Qc; Im : Qc }.

Global Instance Cx_eq_dec : EqDecision Cx.
Proof. solve_decision. Defined.

Module C.
Local Open Scope Qc_scope.

Definition zero : Cx := mkCx 0 0.
Definition one : Cx := mkCx 1 0.
(** The literal [2j]. *)
Definition two_j : Cx := mkCx 0 (Q2Qc 2).
Definition add (z w : Cx) : Cx := mkCx (Re z + Re w) (Im z + Im w).
Definition neg (z : Cx) : Cx := mkCx (- Re z) (- Im z).
Definition sub (z w : Cx) : Cx := mkCx (Re z - Re w) (Im z - Im w).
Definition mul (z w : Cx) : Cx :=
  mkCx (Re z * Re w - Im z * Im w) (Re z * Im w + Im z * Re w).
Definition conjugate (z : Cx) : Cx := mkCx (Re z) (- Im z).
(** [z / r] for a real (float) divisor [r]. *)
Definition div_real (z : Cx) (r : Qc) : Cx := mkCx (Re z / r) (Im z / r).
(** [z / w]: multiply by the conjugate, divide by the squared modulus. *)
Definition div (z w : Cx) : Cx :=
  div_real (mul z (conjugate w)) (Re w * Re w + Im w * Im w).
(** [abs(z) < eps].  The modulus is a square root; on exact numbers
    [|z| < eps] holds iff [eps] is positive and [|z|^2 < eps^2]. *)
Definition abs_lt (z : Cx) (eps : Qc) : bool :=
  bool_decide (0 < eps) && bool_decide (Re z * Re z + Im z * Im z < eps * eps).
End C.

(** ** Scalars of the operator algebra

    The coefficients of operator expressions are Python numbers or sympy
    expressions.  The module only adds them ([ret[t] += c]), divides them
    by a complex literal ([/-2j]), and tries [complex(c)], which raises
    for an expression with free symbols ([None] here). *)

Class Scalar (K : Type) := {
  scalar_eq_dec :: EqDecision K;
  (** [float()], the default of [defaultdict(float)], and the [0] of [np.zeros] *)
  kzero : K;
  (** the literal [1] of [_coeff_term] *)
  kone : K;
  kadd : K → K → K;
  kdiv : K → Cx → K;
  to_complex : K → option Cx;
}.

(** Exact arithmetic on scalars: what the module's additive properties
    rest on (Python floats satisfy these only up to rounding). *)
Class ScalarLaws (K : Type) `{Scalar K} : Prop := {
  kadd_0_l : ∀ c : K, kadd kzero c = c;
  kadd_0_r : ∀ c : K, kadd c kzero = c;
  kadd_assoc : ∀ a b c : K, kadd a (kadd b c) = kadd (kadd a b) c;
  kadd_comm : ∀ a b : K, kadd a b = kadd b a;
  kdiv_0 : ∀ z : Cx, kdiv kzero z = kzero;
}.

(** ** Operator expressions *)

(** Hilbert spaces: the local factors (one per mode) and [TrivialSpace]. *)
Inductive hs : Type :=
| TrivialSpace
| LocalSpace (name : string).

Global Instance hs_eq_dec : EqDecision hs.
Proof. solve_decision. Defined.

(** The expression classes of [qnet.algebra] that the module names. *)
#[warnings="-register-all"]
Inductive operator (K : Type) : Type :=
| IdentityOperator
| OperatorSymbol (name : string) (space : hs)
| Destroy (s : hs)
| Create (s : hs)
| OperatorTimes (factors : list (operator K))
| ScalarTimesOperator (coeff : K) (term : operator K)
| OperatorPlus (operands : list (operator K)).

Arguments IdentityOperator {K}.
Arguments OperatorSymbol {K} name space.
Arguments Destroy {K} s.
Arguments Create {K} s.
Arguments OperatorTimes {K} factors.
Arguments ScalarTimesOperator {K} coeff term.
Arguments OperatorPlus {K} operands.

Section operator_eq.
Context {K : Type} `{EqDecision K}.

Fixpoint operator_eqb (a b : operator K) {struct a} : bool :=
  let fix list_eqb (l1 l2 : list (operator K)) {struct l1} : bool :=
    match l1, l2 with
    | [], [] => true
    | x :: l1', y :: l2' => operator_eqb x y && list_eqb l1' l2'
    | _, _ => false
    end in
  match a, b with
  | IdentityOperator, IdentityOperator => true
  | OperatorSymbol n1 s1, OperatorSymbol n2 s2 =>
      bool_decide (n1 = n2) && bool_decide (s1 = s2)
  | Destroy s1, Destroy s2 => bool_decide (s1 = s2)
  | Create s1, Create s2 => bool_decide (s1 = s2)
  | OperatorTimes l1, OperatorTimes l2 => list_eqb l1 l2
  | ScalarTimesOperator c1 t1, ScalarTimesOperator c2 t2 =>
      bool_decide (c1 = c2) && operator_eqb t1 t2
  | OperatorPlus l1, OperatorPlus l2 => list_eqb l1 l2
  | _, _ => false
  end.

Definition operators_eqb : list (operator K) → list (operator K) → bool :=
  fix list_eqb (l1 l2 : list (operator K)) {struct l1} : bool :=
    match l1, l2 with
    | [], [] => true
    | x :: l1', y :: l2' => operator_eqb x y && list_eqb l1' l2'
    | _, _ => false
    end.

(** Induction over expressions, through the operand lists. *)
Lemma operator_ind' (P : operator K → Prop) :
  P IdentityOperator →
  (∀ n s, P (OperatorSymbol n s)) →
  (∀ s, P (Destroy s)) →
  (∀ s, P (Create s)) →
  (∀ l, Forall P l → P (OperatorTimes l)) →
  (∀ c t, P t → P (ScalarTimesOperator c t)) →
  (∀ l, Forall P l → P (OperatorPlus l)) →
  ∀ e, P e.
Proof.
  intros HI HS HD HC HT HM HP.
  fix IH 1. intros [| | | |l|c t|l].
  - exact HI.
  - apply HS.
  - apply HD.
  - apply HC.
  - apply HT. induction l as [|x l IHl]; constructor; [apply IH|exact IHl].
  - apply HM, IH.
  - apply HP. induction l as [|x l IHl]; constructor; [apply IH|exact IHl].
Qed.

Lemma operators_eqb_spec (l1 l2 : list (operator K)) :
  Forall (λ a, ∀ b, operator_eqb a b = true ↔ a = b) l1 →
  operators_eqb l1 l2 = true ↔ l1 = l2.
Proof.
  intros HF. revert l2.
  induction HF as [|x l1 Hx HF IH]; intros [|y l2]; simpl; try (split; [discriminate|congruence]).
  - done.
  - rewrite andb_true_iff, Hx, IH. split; [intros [-> ->]; done|].
    intros [= -> ->]; done.
Qed.

Lemma operator_eqb_spec (a b : operator K) : operator_eqb a b = true ↔ a = b.
Proof.
  revert b. induction a as [|n s|s|s|l IH|c t IH|l IH] using operator_ind';
    intros [|n' s'|s'|s'|l'|c' t'|l']; simpl;
    try (split; [discriminate|congruence]); try done.
  - rewrite andb_true_iff, !bool_decide_eq_true. split; [intros [-> ->]; done|].
    intros [= -> ->]; done.
  - rewrite bool_decide_eq_true. split; congruence.
  - rewrite bool_decide_eq_true. split; congruence.
  - change (operators_eqb l l' = true ↔ OperatorTimes l = OperatorTimes l').
    rewrite (operators_eqb_spec l l' IH). split; congruence.
  - rewrite andb_true_iff, bool_decide_eq_true, IH. split; [intros [-> ->]; done|].
    intros [= -> ->]; done.
  - change (operators_eqb l l' = true ↔ OperatorPlus l = OperatorPlus l').
    rewrite (operators_eqb_spec l l' IH). split; congruence.
Qed.

(** Expressions are dictionary keys: structural equality is decidable. *)
Global Instance operator_eq_dec : EqDecision (operator K).
Proof.
  intros a b. destruct (operator_eqb a b) eqn:E.
  - left. by apply operator_eqb_spec.
  - right. intros Hab. apply operator_eqb_spec in Hab. congruence.
Defined.
End operator_eq.

(** ** Python containers *)

(** [l[n] = x] on a Python list: a negative index counts from the end,
    an index outside [-len .. len-1] raises [IndexError] ([None]). *)
Definition py_list_setitem {T : Type} (l : list T) (n : Z) (x : T) : option (list T) :=
  let len := Z.of_nat (length l) in
  if bool_decide (0 ≤ n < len)%Z then Some (<[Z.to_nat n := x]> l)
  else if bool_decide (- len ≤ n < 0)%Z then Some (<[Z.to_nat (len + n) := x]> l)
  else None.

(** [for i, x in enumerate(l): s = body(i, x, s)], where the body may raise. *)
Fixpoint for_enumerate {T St : Type} (body : nat → T → St → option St)
    (i : nat) (l : list T) (s : St) : option St :=
  match l with
  | [] => Some s
  | x :: l' => s' ← body i x s; for_enumerate body (S i) l' s'
  end.

(** [for x in l: s = body(x, s)]. *)
Fixpoint for_in {T St : Type} (body : T → St → option St) (l : list T) (s : St) : option St :=
  match l with
  | [] => Some s
  | x :: l' => s' ← body x s; for_in body l' s'
  end.

(** [sorted(d.items())] and [sorted(d.keys())] of a dict with integer keys.
    The keys of a dict are distinct, so the order of the items is the
    order of their keys. *)
Definition item_le (x y : Z * string) : Prop := (x.1 ≤ y.1)%Z.
Global Instance item_le_dec x y : Decision (item_le x y).
Proof. unfold item_le. apply _. Defined.

Definition sorted_items (d : gmap Z string) : list (Z * string) :=
  merge_sort item_le (map_to_list d).
Definition sorted_keys (d : gmap Z string) : list Z :=
  merge_sort Z.le ((map_to_list d).*1).

(** ** numpy arrays *)

(** A two-dimensional array: its shape and its cells in row-major order. *)
Record ndarray2 (T : Type) : Type := mk_ndarray2 {
  nrows : nat;
  ncols : nat;
  cells : list T;
}.
Arguments mk_ndarray2 {T} nrows ncols cells.
Arguments nrows {T} _.
Arguments ncols {T} _.
Arguments cells {T} _.

(** A one- or two-dimensional array, where the code accepts either. *)
Inductive ndarray (T : Type) : Type :=
| Arr1 (v : list T)
| Arr2 (m : ndarray2 T).
Arguments Arr1 {T} v.
Arguments Arr2 {T} m.

Section arrays.
Context {T : Type}.

Definition shape2 (a : ndarray2 T) : nat * nat := (nrows a, ncols a).

(** [np.zeros((n, m))] and [np.zeros(n)] *)
Definition zeros2 (zero : T) (n m : nat) : ndarray2 T :=
  mk_ndarray2 n m (replicate (n * m) zero).
Definition zeros1 (zero : T) (n : nat) : list T := replicate n zero.

(** [a[i, j]] *)
Definition get2 (a : ndarray2 T) (i j : nat) : option T :=
  if bool_decide (i < nrows a ∧ j < ncols a) then cells a !! (i * ncols a + j) else None.

(** [a[i, j] = v]; [IndexError] outside the shape *)
Definition set2 (a : ndarray2 T) (i j : nat) (v : T) : option (ndarray2 T) :=
  if bool_decide (i < nrows a ∧ j < ncols a)
  then Some (mk_ndarray2 (nrows a) (ncols a) (<[i * ncols a + j := v]> (cells a)))
  else None.

(** [u[i] = v] on a one-dimensional array *)
Definition set1 (u : list T) (i : nat) (v : T) : option (list T) :=
  if bool_decide (i < length u) then Some (<[i := v]> u) else None.

(** Row [i] of a matrix. *)
Definition row (a : ndarray2 T) (i : nat) : list T :=
  take (ncols a) (drop (i * ncols a) (cells a)).

(** [a.ravel()] *)
Definition ravel (a : ndarray T) : list T :=
  match a with Arr1 v => v | Arr2 m => cells m end.

(** The cells fill the shape. *)
Definition wf2 (a : ndarray2 T) : Prop := length (cells a) = nrows a * ncols a.
End arrays.

(** ** The operator-algebra engine

    What [kerr_model_matrices] calls in [qnet.algebra.circuit_algebra],
    by the name it has there. *)

(** An argument of [coherent_input]: the integer [0] or a drive operator. *)
Inductive drive (K : Type) : Type :=
| NoDrive
| Drive (u : operator K).
Arguments NoDrive {K}.
Arguments Drive {K} u.

Class Engine (K : Type) := {
  (** SLH models and [Matrix] objects *)
  SLH : Type;
  Matrix : Type;
  (** [e.expand()], [e.simplify_scalar()], [a * b] on operators *)
  expand : operator K → operator K;
  simplify_scalar : operator K → operator K;
  op_mul : operator K → operator K → operator K;
  (** [slh.space.local_factors()] and the order [sorted] puts them in *)
  local_factors : SLH → list hs;
  hs_le : hs → hs → bool;
  (** [slh.cdim], [slh.S], [slh.L.matrix[:,0]] *)
  cdim : SLH → nat;
  slh_S : SLH → Matrix;
  slh_L_column : SLH → list (operator K);
  (** [slh.coherent_input] on the per-port drives, [slh.expand()],
      [slh.simplify_scalar()] *)
  coherent_input : SLH → list (drive K) → SLH;
  slh_expand : SLH → SLH;
  slh_simplify_scalar : SLH → SLH;
  (** [slh.symbolic_heisenberg_eom(X, noises=noises)] *)
  symbolic_heisenberg_eom : SLH → operator K → list (operator K) → operator K;
  (** the output processes: [slh.S] times the column of [noises], plus
      [slh.L], expanded and scalar-simplified *)
  output_processes : SLH → list (operator K) → Matrix;
}.

(** ** [get_coeffs] *)

Section coefficients.
Context {K : Type} `{!Scalar K}.

(** A [defaultdict(float)] keyed by operator terms, in insertion order. *)
Definition defaultdict : Type := list (operator K * K).

Fixpoint dd_lookup (d : defaultdict) (k : operator K) : option K :=
  match d with
  | [] => None
  | (k', v) :: d' => if decide (k' = k) then Some v else dd_lookup d' k
  end.

(** [d[k] = v] *)
Fixpoint dd_setitem (d : defaultdict) (k : operator K) (v : K) : defaultdict :=
  match d with
  | [] => [(k, v)]
  | (k', v') :: d' =>
      if decide (k' = k) then (k', v) :: d' else (k', v') :: dd_setitem d' k v
  end.

(** [d[k]]: a missing key is first inserted with the default [float()]. *)
Definition dd_getitem (d : defaultdict) (k : operator K) : K * defaultdict :=
  match dd_lookup d k with
  | Some v => (v, d)
  | None => (kzero, dd_setitem d k kzero)
  end.

(** The value [d[k]] reads. *)
Definition dd_get (d : defaultdict) (k : operator K) : K := (dd_getitem d k).1.

(** [d[k] += c] *)
Definition dd_iadd (d : defaultdict) (k : operator K) (c : K) : defaultdict :=
  let '(v, d1) := dd_getitem d k in dd_setitem d1 k (kadd v c).

Definition _coeff_term (expr : operator K) : K * operator K :=
  match expr with
  | ScalarTimesOperator coeff term => (coeff, term)
  | _ => (kone, expr)
  end.

(** [expr.operands if isinstance(expr, OperatorPlus) else [expr]] *)
Definition addends (expr : operator K) : list (operator K) :=
  match expr with
  | OperatorPlus operands => operands
  | _ => [expr]
  end.

(** The test of the [try] block: [abs(complex(c)) < epsilon], false when
    [complex(c)] raises (the [except] clause passes). *)
Definition truncated (c : K) (epsilon : Qc) : bool :=
  match to_complex c with
  | Some z => C.abs_lt z epsilon
  | None => false
  end.

(** The body of the loop over the operands. *)
Definition get_coeffs_step (epsilon : Qc) (ret : defaultdict) (e : operator K) : defaultdict :=
  let '(c, t) := _coeff_term e in
  if truncated c epsilon then ret else dd_iadd ret t c.

(** [expand_first] is the keyword argument [expand] (the name of the
    engine's method here). *)
Definition get_coeffs `{!Engine K} (expr : operator K) (expand_first : bool) (epsilon : Qc)
    : defaultdict :=
  let expr := if expand_first then expand expr else expr in
  let ret : defaultdict := [] in
  let operands := addends expr in
  foldl (get_coeffs_step epsilon) ret operands.
End coefficients.
Arguments defaultdict K : clear implicits.

(** ** [model_matrices] *)

(** [inputs == 0] compares a list with an integer: the comparison is
    defined for no pair of these types, so Python answers [False]. *)
Definition list_eq_int {T : Type} (l : list T) (n : Z) : bool := false.

Section model.
Context {K : Type} `{!Scalar K} `{!Engine K}.

Definition hs_order (a b : hs) : Prop := hs_le a b = true.
Local Instance hs_order_dec a b : Decision (hs_order a b).
Proof. unfold hs_order. apply _. Defined.

(** The arrays filled from the equations of motion of the modes ... *)
Record mode_arrays : Type := mk_mode_arrays {
  st_A : ndarray2 K;
  st_A_kerr : ndarray2 K;
  st_B : ndarray2 K;
  st_B_input : ndarray2 K;
  st_u_c : list K;
}.

(** ... and those filled from the rows of the coupling vector [L]. *)
Record port_arrays : Type := mk_port_arrays {
  st_C : ndarray2 K;
  st_D_input : ndarray2 K;
  st_U_c : list K;
}.

(** The returned tuple; [r_eoms] holds the two trailing elements that
    [return_eoms] adds. *)
Record model_matrices_result : Type := mk_result {
  r_A : ndarray2 K;
  r_B : ndarray2 K;
  r_C : ndarray2 K;
  r_D : Matrix;
  r_A_kerr : ndarray2 K;
  r_B_input : ndarray2 K;
  r_D_input : ndarray2 K;
  r_u_c : list K;
  r_U_c : list K;
  r_eoms : option (list (operator K) * Matrix);
}.

Definition noise_symbol (n : nat) : operator K :=
  OperatorSymbol ("dA/dt_{" +:+ pretty n +:+ "}") TrivialSpace.

Definition input_symbol (u_name : string) : operator K :=
  OperatorSymbol ("u_{" +:+ u_name +:+ "}") TrivialSpace.

(** [Create(skk) * Destroy(skk) * Destroy(sjj)] *)
Definition kerr_term (skk sjj : hs) : operator K :=
  op_mul (op_mul (Create skk) (Destroy skk)) (Destroy sjj).

(** The body of the first loop, for mode [sjj] at row [jj]. *)
Definition mode_row (modes : list hs) (noises inputs eoms : list (operator K))
    (epsilon : Qc) (jj : nat) (sjj : hs) (st : mode_arrays) : option mode_arrays :=
  eom ← eoms !! jj;
  let coeffsjj := get_coeffs eom false epsilon in
  '(coeffsjj, A, A_kerr) ←
    for_enumerate (λ kk skk '(coeffsjj, A, A_kerr),
        let '(v, coeffsjj) := dd_getitem coeffsjj (Destroy skk) in
        A ← set2 A jj kk v;
        let '(v, coeffsjj) := dd_getitem coeffsjj (kerr_term skk sjj) in
        A_kerr ← set2 A_kerr jj kk (kdiv v (C.neg C.two_j));
        Some (coeffsjj, A, A_kerr))
      0 modes (coeffsjj, st_A st, st_A_kerr st);
  '(coeffsjj, B) ←
    for_enumerate (λ kk dAkk '(coeffsjj, B),
        let '(v, coeffsjj) := dd_getitem coeffsjj dAkk in
        B ← set2 B jj kk v;
        Some (coeffsjj, B))
      0 noises (coeffsjj, st_B st);
  '(coeffsjj, B_input) ←
    for_enumerate (λ kk u_kk '(coeffsjj, B_input),
        if list_eq_int inputs 0 then Some (coeffsjj, B_input)
        else
          let '(v, coeffsjj) := dd_getitem coeffsjj u_kk in
          B_input ← set2 B_input jj kk v;
          Some (coeffsjj, B_input))
      0 inputs (coeffsjj, st_B_input st);
  let '(v, coeffsjj) := dd_getitem coeffsjj IdentityOperator in
  u_c ← set1 (st_u_c st) jj v;
  Some (mk_mode_arrays A A_kerr B B_input u_c).

(** The body of the second loop, for the row [Ljj] of [L] at port [jj];
    [get_coeffs] gets no [epsilon] here, so its default [0.]. *)
Definition port_row (modes : list hs) (inputs : list (operator K))
    (jj : nat) (Ljj : operator K) (st : port_arrays) : option port_arrays :=
  let coeffsjj := get_coeffs Ljj false 0%Qc in
  '(coeffsjj, C) ←
    for_enumerate (λ kk skk '(coeffsjj, C),
        let '(v, coeffsjj) := dd_getitem coeffsjj (Destroy skk) in
        C ← set2 C jj kk v;
        Some (coeffsjj, C))
      0 modes (coeffsjj, st_C st);
  let '(v, coeffsjj) := dd_getitem coeffsjj IdentityOperator in
  U_c ← set1 (st_U_c st) jj v;
  '(coeffsjj, D_input) ←
    for_enumerate (λ kk u_kk '(coeffsjj, D_input),
        let '(v, coeffsjj) := dd_getitem coeffsjj u_kk in
        D_input ← set2 D_input jj kk v;
        Some (coeffsjj, D_input))
      0 inputs (coeffsjj, st_D_input st);
  Some (mk_port_arrays C D_input U_c).

(** [sorted(slh.space.local_factors())] *)
Definition modes_of (slh : SLH) : list hs := merge_sort hs_order (local_factors slh).

(** The symbols for the external field modes and for the dynamic inputs. *)
Definition noises_of (slh : SLH) : list (operator K) := noise_symbol <$> seq 0 (cdim slh).
Definition inputs_of (dynamic_input_ports : gmap Z string) : list (operator K) :=
  (λ '(n, u_name), input_symbol u_name) <$> sorted_items dynamic_input_ports.

(** [inputs_extended]: [[0] * cdim], then one assignment per dynamic input. *)
Definition extend_inputs (slh : SLH) (dynamic_input_ports : gmap Z string)
    : option (list (drive K)) :=
  for_in (λ '(ii, n) inputs_extended, py_list_setitem inputs_extended n (Drive ii))
    (zip (inputs_of dynamic_input_ports) (sorted_keys dynamic_input_ports))
    (replicate (cdim slh) NoDrive).

(** [slh.coherent_input(...).expand().simplify_scalar()] *)
Definition feed_inputs (slh : SLH) (inputs_extended : list (drive K)) : SLH :=
  slh_simplify_scalar (slh_expand (coherent_input slh inputs_extended)).

(** The QSDEs of the internal modes. *)
Definition eoms_of (slh_input : SLH) (modes : list hs) (noises : list (operator K))
    : list (operator K) :=
  (λ s, simplify_scalar (expand (symbolic_heisenberg_eom slh_input (Destroy s) noises)))
    <$> modes.

(** [None] stands for an exception ([IndexError] from a port index
    outside the ports, or from a coupling vector longer than [cdim]).
    The two [print] calls are not modelled. *)
Definition model_matrices (slh : SLH) (dynamic_input_ports : gmap Z string)
    (apply_kerr_diagonal_correction : bool) (epsilon : Qc) (return_eoms : bool)
    : option model_matrices_result :=
  (* the different degrees of freedom *)
  let modes := modes_of slh in
  (* various dimensions *)
  let ncav := length modes in
  let cdim := cdim slh in
  let ninputs := size dynamic_input_ports in
  (* initialize the matrices *)
  let A := zeros2 kzero ncav ncav in
  let B := zeros2 kzero ncav cdim in
  let C := zeros2 kzero cdim ncav in
  let D := slh_S slh in
  let A_kerr := zeros2 kzero ncav ncav in
  let B_input := zeros2 kzero ncav ninputs in
  let D_input := zeros2 kzero cdim ninputs in
  let u_c := zeros1 kzero ncav in
  let U_c := zeros1 kzero cdim in
  (* make symbols for the external field modes *)
  let noises := noises_of slh in
  (* make symbols for the dynamic inputs *)
  let inputs := inputs_of dynamic_input_ports in
  inputs_extended ← extend_inputs slh dynamic_input_ports;
  (* feed in the dynamic inputs *)
  let slh_input := feed_inputs slh inputs_extended in
  (* compute the QSDEs for the internal operators *)
  let eoms := eoms_of slh_input modes noises in
  (* use the coefficients to generate A, B matrices *)
  st ← for_enumerate (mode_row modes noises inputs eoms epsilon) 0 modes
         (mk_mode_arrays A A_kerr B B_input u_c);
  (* use the coefficients in the L vector to generate the C, D matrices *)
  pt ← for_enumerate (port_row modes inputs) 0 (slh_L_column slh_input)
         (mk_port_arrays C D_input U_c);
  let trailing :=
    if return_eoms then Some (eoms, output_processes slh_input noises) else None in
  Some (mk_result (st_A st) (st_B st) (st_C pt) D (st_A_kerr st) (st_B_input st)
          (st_D_input pt) (st_u_c st) (st_U_c pt) trailing).
End model.
Arguments mode_arrays K : clear implicits.
Arguments port_arrays K : clear implicits.

(** ** [prepare_sde] *)

(** The first nine elements of the numeric tuple.  [u_c] and [U_c] are
    one-dimensional when they come from [model_matrices_complex] and
    columns when they come from substituting into symbolic matrices. *)
Record numeric_model_matrices : Type := mk_numeric {
  n_A : ndarray2 Cx;
  n_B : ndarray2 Cx;
  n_C : ndarray2 Cx;
  n_D : ndarray2 Cx;
  n_A_kerr : ndarray2 Cx;
  n_B_input : ndarray2 Cx;
  n_D_input : ndarray2 Cx;
  n_u_c : ndarray Cx;
  n_U_c : ndarray Cx;
}.

Module np.
(** An elementwise operation on two vectors, with numpy's broadcasting
    of a vector of length one; [None] is the [ValueError] for shapes
    that do not match. *)
Definition elementwise (f : Cx → Cx → Cx) (x y : list Cx) : option (list Cx) :=
  if decide (length x = length y) then Some (zip_with f x y)
  else match x, y with
       | [a], _ => Some (f a <$> y)
       | _, [b] => Some ((λ a, f a b) <$> x)
       | _, _ => None
       end.

Definition sum (l : list Cx) : Cx := foldl C.add C.zero l.

(** [m.dot(v)] for a matrix and a vector *)
Definition dot (m : ndarray2 Cx) (v : list Cx) : option (list Cx) :=
  if decide (ncols m = length v)
  then Some ((λ i, sum (zip_with C.mul (row m i) v)) <$> seq 0 (nrows m))
  else None.

(** [z * v] for a scalar [z] *)
Definition scale (z : Cx) (v : list Cx) : list Cx := C.mul z <$> v.

(** [m / r] for a float [r] *)
Definition div_real (m : ndarray2 Cx) (r : Qc) : ndarray2 Cx :=
  mk_ndarray2 (nrows m) (ncols m) ((λ z, C.div_real z r) <$> cells m).
End np.

Module SDE.
Section sde.
Variable numeric_model_matrices : numeric_model_matrices.
Variable input_fn : Qc → list Cx.

Let A := n_A numeric_model_matrices.
Let B := n_B numeric_model_matrices.
Let A_kerr := n_A_kerr numeric_model_matrices.
Let B_input := n_B_input numeric_model_matrices.
Let B_over_2 := np.div_real B (Q2Qc 2).
Let u_c := ravel (n_u_c numeric_model_matrices).

(** [A.dot(a) - 2j * (A_kerr.dot(a.conjugate() * a)) * a + u_c
     + B_input.dot(input_fn(t))] *)
Definition f (a : list Cx) (t : Qc) : option (list Cx) :=
  Aa ← np.dot A a;
  n ← np.elementwise C.mul (C.conjugate <$> a) a;
  kn ← np.dot A_kerr n;
  kerr ← np.elementwise C.mul (np.scale C.two_j kn) a;
  d ← np.elementwise C.sub Aa kerr;
  d ← np.elementwise C.add d u_c;
  Bu ← np.dot B_input (input_fn t);
  np.elementwise C.add d Bu.

Definition g (a : list Cx) (t : Qc) : ndarray2 Cx := B_over_2.

Definition prepare_sde :
    (list Cx → Qc → option (list Cx)) * (list Cx → Qc → ndarray2 Cx) :=
  (f, g).
End sde.
End SDE.

(** ** [model_matrices_complex] *)

Section complex_matrices.
Context {K : Type} `{!Scalar K} `{!Engine K}.

(** [m.astype(complex)] on a [Matrix] object of the engine ([slh.S] is
    one); [None] when it raises. *)
Variable Matrix_astype_complex : Matrix → option (ndarray Cx).

(** An element of the tuple that [model_matrices] returns. *)
Inductive tuple_element : Type :=
| Array2 (a : ndarray2 K)
| Array1 (v : list K)
| MatrixObject (m : Matrix)
| OperatorList (l : list (operator K)).

(** The tuple [(A, B, C, D, A_kerr, B_input, D_input, u_c, U_c)], with
    [eoms, dAps] at its end when [return_eoms] is set. *)
Definition as_tuple (r : model_matrices_result) : list tuple_element :=
  [Array2 (r_A r); Array2 (r_B r); Array2 (r_C r); MatrixObject (r_D r);
   Array2 (r_A_kerr r); Array2 (r_B_input r); Array2 (r_D_input r);
   Array1 (r_u_c r); Array1 (r_U_c r)]
  ++ match r_eoms r with
     | Some (eoms, dAps) => [OperatorList eoms; MatrixObject dAps]
     | None => []
     end.

(** [arr.astype(complex)]: [complex(x)] of every entry of an object array,
    an error as soon as one raises; a Python list has no [astype]. *)
Definition astype_complex (arr : tuple_element) : option (ndarray Cx) :=
  match arr with
  | Array2 a =>
      cs ← mapM to_complex (cells a); Some (Arr2 (mk_ndarray2 (nrows a) (ncols a) cs))
  | Array1 v => cs ← mapM to_complex v; Some (Arr1 cs)
  | MatrixObject m => Matrix_astype_complex m
  | OperatorList _ => None
  end.

(** An element of the returned list: a converted array, or an element of
    the tuple passed on as it is. *)
Inductive returned_element : Type :=
| Numeric (a : ndarray Cx)
| Passed (x : tuple_element).

Definition model_matrices_complex (slh : SLH) (dynamic_input_ports : gmap Z string)
    (apply_kerr_diagonal_correction : bool) (epsilon : Qc) (return_eoms : bool)
    : option (list returned_element) :=
  r ← model_matrices slh dynamic_input_ports apply_kerr_diagonal_correction epsilon
         return_eoms;
  let matrices := as_tuple r in
  if decide (length matrices ≤ 9) then
    arrs ← mapM astype_complex matrices; Some (Numeric <$> arrs)
  else
    arrs ← mapM astype_complex (take 9 matrices);
    Some ((Numeric <$> arrs) ++ (Passed <$> drop 9 matrices)).

End complex_matrices.

(** ** A small engine for running the definitions

    A stand-in for the operator algebra, enough to evaluate the module on
    concrete models: scalars [z + w κ] with [z], [w] complex and [κ] one
    free symbol, products kept as flat lists of factors, and models given
    by their modes, ports, coupling vector and equations of motion. *)

Module Mock.
Record scalar : Type := mk_scalar { num : Cx; sym : Cx }.

Global Instance scalar_eq_dec : EqDecision scalar.
Proof. solve_decision. Defined.

(** A Python number, and the product of a number with the symbol. *)
Definition number (re im : Z) : scalar :=
  mk_scalar (mkCx (Q2Qc (inject_Z re)) (Q2Qc (inject_Z im))) C.zero.
Definition ratio (p : Z) (q : positive) : scalar :=
  mk_scalar (mkCx (Q2Qc (p # q)) (Q2Qc 0)) C.zero.
Definition symbolic (re im : Z) : scalar :=
  mk_scalar C.zero (mkCx (Q2Qc (inject_Z re)) (Q2Qc (inject_Z im))).

Global Instance scalar_ops : Scalar scalar := {|
  kzero := mk_scalar C.zero C.zero;
  kone := mk_scalar C.one C.zero;
  kadd a b := mk_scalar (C.add (num a) (num b)) (C.add (sym a) (sym b));
  kdiv a z := mk_scalar (C.div (num a) z) (C.div (sym a) z);
  to_complex a := if decide (sym a = C.zero) then Some (num a) else None;
|}.

Definition factors (a : operator scalar) : list (operator scalar) :=
  match a with OperatorTimes l => l | _ => [a] end.

Record model : Type := mk_model {
  m_modes : list hs;
  m_cdim : nat;
  m_S : list (list scalar);
  m_L : list (operator scalar);
  m_eom : hs → list (operator scalar) → operator scalar;
}.

Definition space_le (a b : hs) : bool :=
  match a, b with
  | TrivialSpace, _ => true
  | LocalSpace _, TrivialSpace => false
  | LocalSpace x, LocalSpace y => String.leb x y
  end.

(** A coherent drive adds its amplitude to the coupling vector. *)
Definition add_drive (Lj : operator scalar) (w : drive scalar) : operator scalar :=
  match w with
  | NoDrive => Lj
  | Drive u => OperatorPlus (addends Lj ++ [u])
  end.

Definition scattering (m : model) : list (list (operator scalar)) :=
  map (map (λ c : scalar, ScalarTimesOperator c IdentityOperator)) (m_S m).

Definition output_fields (m : model) (noises : list (operator scalar))
    : list (list (operator scalar)) :=
  zip_with (λ (r : list scalar) (Lj : operator scalar),
              [OperatorPlus (zip_with ScalarTimesOperator r noises ++ addends Lj)])
    (m_S m) (m_L m).

Global Instance engine : Engine scalar := {|
  SLH := model;
  Matrix := list (list (operator scalar));
  expand e := e;
  simplify_scalar e := e;
  op_mul a b := OperatorTimes (factors a ++ factors b);
  local_factors := m_modes;
  hs_le := space_le;
  cdim := m_cdim;
  slh_S := scattering;
  slh_L_column := m_L;
  coherent_input m ws := mk_model (m_modes m) (m_cdim m) (m_S m)
                           (zip_with add_drive (m_L m) ws) (m_eom m);
  slh_expand m := m;
  slh_simplify_scalar m := m;
  symbolic_heisenberg_eom m X noises :=
    match X with Destroy s => m_eom m s noises | _ => OperatorPlus [] end;
  output_processes := output_fields;
|}.

(** The mode [c] and its annihilation operator. *)
Definition cav : hs := LocalSpace "c".
Definition a_c : operator scalar := Destroy cav.

(** A Kerr cavity [c] with one port, driven through that port by the
    dynamic input [in]:
    [da/dt = (-1/2 - 3i) a - 4i a^* a a - dA_0 - u_in],  [L = a]. *)
Definition kerr_cavity : @SLH scalar engine :=
  mk_model [cav] 1 [[number 1 0]] [a_c]
    (λ s noises,
       OperatorPlus
         ([ScalarTimesOperator (mk_scalar (mkCx (Q2Qc (-1 # 2)) (Q2Qc (-3 # 1))) C.zero) (Destroy s);
           ScalarTimesOperator (number 0 (-4))
             (OperatorTimes [Create s; Destroy s; Destroy s])]
          ++ ((ScalarTimesOperator (number (-1) 0)) <$> noises)
          ++ [ScalarTimesOperator (number (-1) 0) (OperatorSymbol "u_{in}" TrivialSpace)])).

Definition one_input : gmap Z string := {[ 0%Z := "in" ]}.

(** Two keys for the one port, [-1] and [0], under one name. *)
Definition twin_inputs : gmap Z string := {[ (-1)%Z := "in"; 0%Z := "in" ]}.

(** The cavity without its Kerr term:
    [da/dt = (-1/2 - 3i) a - dA_0 - u_in],  [L = a]. *)
Definition linear_cavity : @SLH scalar engine :=
  mk_model [cav] 1 [[number 1 0]] [a_c]
    (λ s noises,
       OperatorPlus
         ([ScalarTimesOperator (mk_scalar (mkCx (Q2Qc (-1 # 2)) (Q2Qc (-3 # 1))) C.zero) (Destroy s)]
          ++ ((ScalarTimesOperator (number (-1) 0)) <$> noises)
          ++ [ScalarTimesOperator (number (-1) 0) (OperatorSymbol "u_{in}" TrivialSpace)])).
End Mock.

(** ** Concrete inputs for the examples *)

Module Inputs.
Import Mock.

Definition b_d : operator scalar := Destroy (LocalSpace "d").
Definition eps : Qc := Q2Qc (1 # 100).

(** [0.001 a + 5 b] *)
Definition small_a_plus_b : operator scalar :=
  OperatorPlus [ScalarTimesOperator (ratio 1 1000) a_c; ScalarTimesOperator (number 5 0) b_d].

(** [0.001 a + 5 a], a sum that repeats the term [a] *)
Definition small_a_plus_a : operator scalar :=
  OperatorPlus [ScalarTimesOperator (ratio 1 1000) a_c; ScalarTimesOperator (number 5 0) a_c].

(** [3 a + 5 a] *)
Definition three_a_plus_five_a : operator scalar :=
  OperatorPlus [ScalarTimesOperator (number 3 0) a_c; ScalarTimesOperator (number 5 0) a_c].

(** [κ a + 0.001 a] with the symbol [κ] *)
Definition symbolic_a : operator scalar :=
  OperatorPlus [ScalarTimesOperator (symbolic 1 0) a_c; ScalarTimesOperator (ratio 1 1000) a_c].

Definition eps0 : Qc := Q2Qc 0.

Definition re (n : Z) : Cx := mkCx (Q2Qc (inject_Z n)) (Q2Qc 0).
Definition im (n : Z) : Cx := mkCx (Q2Qc 0) (Q2Qc (inject_Z n)).

(** Two modes with [A = 0], [A_kerr = [[1, 1], [0, 0]]], no drive and no
    dynamic input. *)
Definition two_modes : numeric_model_matrices :=
  mk_numeric (zeros2 C.zero 2 2) (zeros2 C.zero 2 1) (zeros2 C.zero 1 2)
    (mk_ndarray2 1 1 [C.one])
    (mk_ndarray2 2 2 [C.one; C.one; C.zero; C.zero])
    (zeros2 C.zero 2 0) (zeros2 C.zero 1 0)
    (Arr1 [C.zero; C.zero]) (Arr1 [C.zero]).

Definition no_input (t : Qc) : list Cx := [].

(** [5 b + 0.001 a], the addends of [small_a_plus_b] in the other order *)
Definition b_plus_small_a : operator scalar :=
  OperatorPlus [ScalarTimesOperator (number 5 0) b_d; ScalarTimesOperator (ratio 1 1000) a_c].

Definition eps_neg : Qc := Q2Qc (-1).
Definition eps_large : Qc := Q2Qc 5.


(** Two modes that rotate into each other, [A = [[0, 1], [-1, 0]]], with
    no Kerr coupling, no drive and no dynamic input. *)
Definition two_modes_linear : numeric_model_matrices :=
  mk_numeric (mk_ndarray2 2 2 [C.zero; C.one; C.neg C.one; C.zero])
    (zeros2 C.zero 2 1) (zeros2 C.zero 1 2)
    (mk_ndarray2 1 1 [C.one])
    (zeros2 C.zero 2 2)
    (zeros2 C.zero 2 0) (zeros2 C.zero 1 0)
    (Arr1 [C.zero; C.zero]) (Arr1 [C.zero]).
End Inputs.

(** * The vocabulary of the properties *)

(** ** Addends and their contributions to a key *)

Section coefficient_vocabulary.
Context {K : Type} `{!Scalar K}.

(** The coefficient and the term of an addend. *)
Definition coeff_of (a : operator K) : K := (_coeff_term a).1.
Definition term_of (a : operator K) : operator K := (_coeff_term a).2.

(** The addends that the truncation test lets through. *)
Definition kept (epsilon : Qc) (e : operator K) : bool :=
  negb (truncated (_coeff_term e).1 epsilon).

(** The coefficients that reach key [t]: those of the kept addends whose
    term is [t], in the order of the sum. *)
Definition contributions (epsilon : Qc) (t : operator K) (l : list (operator K)) : list K :=
  omap (λ e, if kept epsilon e && bool_decide ((_coeff_term e).2 = t)
             then Some (_coeff_term e).1 else None) l.

(** The sum the loop builds, from the default [float()] on. *)
Definition ksum (cs : list K) : K := foldl kadd kzero cs.



(** [d.keys()], in insertion order. *)
Definition dd_keys (d : defaultdict K) : list (operator K) := d.*1.
End coefficient_vocabulary.

(** ** Shapes and contents of arrays *)

Section array_vocabulary.
Context {K : Type} `{!Scalar K}.

Definition shaped (a : ndarray2 K) (n m : nat) : Prop :=
  nrows a = n ∧ ncols a = m ∧ wf2 a.

(** The rows above [jj] and the first [kk] cells of row [jj] hold [f]. *)
Definition filled (a : ndarray2 K) (f : nat → nat → K) (jj kk : nat) : Prop :=
  ∀ r c, c < ncols a → r < jj ∨ (r = jj ∧ c < kk) → get2 a r c = Some (f r c).

(** Two dictionaries that read alike at every key. *)
Definition same_reads (d d' : defaultdict K) : Prop := ∀ k, dd_get d k = dd_get d' k.

(** The loop that fills row [jj] of one array from the dictionary:
    [for kk, x in enumerate(xs): a[jj, kk] = post(d[key(x)])]. *)
Definition fill_body {T : Type} (key : T → operator K) (post : K → K) (jj : nat)
    (kk : nat) (x : T) (s : defaultdict K * ndarray2 K)
    : option (defaultdict K * ndarray2 K) :=
  let '(d, a) := s in
  let '(v, d) := dd_getitem d (key x) in
  a ← set2 a jj kk (post v);
  Some (d, a).
End array_vocabulary.

(** ** What the loops of [model_matrices] leave in the arrays *)

Section mode_vocabulary.
Context {K : Type} `{!Scalar K} `{!Engine K}.
Variables (modes : list hs) (noises inputs eoms : list (operator K)) (epsilon : Qc).

Let ncav := length modes.

(** What the first loop is to leave in the arrays. *)
Definition mode_at (c : nat) : hs := default TrivialSpace (modes !! c).
Definition coeffs_at (r : nat) : defaultdict K :=
  get_coeffs (default IdentityOperator (eoms !! r)) false epsilon.
Definition A_entry (r c : nat) : K := dd_get (coeffs_at r) (Destroy (mode_at c)).
Definition A_kerr_entry (r c : nat) : K :=
  kdiv (dd_get (coeffs_at r) (kerr_term (mode_at c) (mode_at r))) (C.neg C.two_j).
Definition B_entry (r c : nat) : K :=
  dd_get (coeffs_at r) (default IdentityOperator (noises !! c)).
Definition B_input_entry (r c : nat) : K :=
  dd_get (coeffs_at r) (default IdentityOperator (inputs !! c)).
Definition u_c_entry (r : nat) : K := dd_get (coeffs_at r) IdentityOperator.

Definition mode_inv (jj : nat) (st : mode_arrays K) : Prop :=
  (shaped (st_A st) ncav ncav ∧ filled (st_A st) A_entry jj 0)
  ∧ (shaped (st_A_kerr st) ncav ncav ∧ filled (st_A_kerr st) A_kerr_entry jj 0)
  ∧ (shaped (st_B st) ncav (length noises) ∧ filled (st_B st) B_entry jj 0)
  ∧ (shaped (st_B_input st) ncav (length inputs)
     ∧ filled (st_B_input st) B_input_entry jj 0)
  ∧ (length (st_u_c st) = ncav ∧ ∀ r, r < jj → st_u_c st !! r = Some (u_c_entry r)).

(** The equation of motion of mode [s], as [model_matrices] computes it. *)
Definition eom_of (slh_input : SLH) (noises : list (operator K)) (s : hs) : operator K :=
  simplify_scalar (expand (symbolic_heisenberg_eom slh_input (Destroy s) noises)).
End mode_vocabulary.

Section port_vocabulary.
Context {K : Type} `{!Scalar K} `{!Engine K}.
Variables (modes : list hs) (inputs Ls : list (operator K)) (ncdim : nat).

Let ncav := length modes.

(** What the second loop is to leave in the arrays. *)
Definition L_coeffs_at (r : nat) : defaultdict K :=
  get_coeffs (default IdentityOperator (Ls !! r)) false 0%Qc.
Definition C_entry (r c : nat) : K := dd_get (L_coeffs_at r) (Destroy (mode_at modes c)).
Definition D_input_entry (r c : nat) : K :=
  dd_get (L_coeffs_at r) (default IdentityOperator (inputs !! c)).
Definition U_c_entry (r : nat) : K := dd_get (L_coeffs_at r) IdentityOperator.

Definition port_shapes (pt : port_arrays K) : Prop :=
  shaped (st_C pt) ncdim ncav
  ∧ shaped (st_D_input pt) ncdim (length inputs)
  ∧ length (st_U_c pt) = ncdim.

Definition port_inv (jj : nat) (pt : port_arrays K) : Prop :=
  (shaped (st_C pt) ncdim ncav ∧ filled (st_C pt) C_entry jj 0)
  ∧ (shaped (st_D_input pt) ncdim (length inputs)
     ∧ filled (st_D_input pt) D_input_entry jj 0)
  ∧ (length (st_U_c pt) = ncdim ∧ ∀ r, r < jj → st_U_c pt !! r = Some (U_c_entry r)).
End port_vocabulary.

(** ** Conversion to complex arrays *)

Section conversion_vocabulary.
Context {K : Type} `{!Scalar K}.

(** [A] is [a.astype(complex)]: the shape of [a], and [complex(x)] for
    every cell [x] of [a]. *)
Definition converted2 (a : ndarray2 K) (A : ndarray2 Cx) : Prop :=
  nrows A = nrows a ∧ ncols A = ncols a ∧ mapM to_complex (cells a) = Some (cells A).
Definition converted1 (v : list K) (u : list Cx) : Prop :=
  mapM to_complex v = Some u.
End conversion_vocabulary.

(** ** Python indices *)

(** The position that the index [n] denotes in a list of length [len], and
    the indices that denote one. *)
Definition py_index (len : nat) (n : Z) : nat :=
  Z.to_nat (if bool_decide (0 ≤ n)%Z then n else Z.of_nat len + n).
Definition py_index_ok (len : nat) (n : Z) : Prop :=
  (- Z.of_nat len ≤ n < Z.of_nat len)%Z.
Global Instance py_index_ok_dec len n : Decision (py_index_ok len n).
Proof. unfold py_index_ok. apply _. Defined.

(** The loop [for ii, n in ps: inputs_extended[n] = ii] of [model_matrices]. *)
Definition place {K : Type} (ps : list (operator K * Z)) (l : list (drive K))
    : option (list (drive K)) :=
  for_in (λ '(ii, n) inputs_extended, py_list_setitem inputs_extended n (Drive ii)) ps l.

(** ** Index notation for vectors and matrices *)

(** Index notation: [m[i, k]], [v[k]] and the sum over [k < n]. *)
Definition entry (m : ndarray2 Cx) (i k : nat) : Cx := default C.zero (get2 m i k).
Definition component (v : list Cx) (k : nat) : Cx := default C.zero (v !! k).
Fixpoint csum (f : nat → Cx) (n : nat) : Cx :=
  match n with
  | 0 => C.zero
  | S n' => C.add (csum f n') (f n')
  end.

(** Component [i] of the matrix-vector product of [m] with the vector
    whose components are [x]. *)
Definition matvec (m : ndarray2 Cx) (x : nat → Cx) (i : nat) : Cx :=
  csum (λ k, C.mul (entry m i k) (x k)) (ncols m).

(** * Properties *)

(** ** Loops *)

Section loops.
Context {T St : Type}.

(** The invariant rule for an [enumerate] loop whose body never raises. *)
Lemma for_enumerate_inv (body : nat → T → St → option St) (Inv : nat → St → Prop)
    (l : list T) (i0 : nat) (s0 : St) :
  Inv i0 s0 →
  (∀ k x s, l !! k = Some x → Inv (i0 + k) s →
     ∃ s', body (i0 + k) x s = Some s' ∧ Inv (i0 + S k) s') →
  ∃ s', for_enumerate body i0 l s0 = Some s' ∧ Inv (i0 + length l) s'.
Proof.
  revert i0 s0. induction l as [|x l IH]; intros i0 s0 H0 Hstep; simpl.
  - exists s0. by rewrite Nat.add_0_r.
  - destruct (Hstep 0 x s0) as (s1 & Hb & H1); [done|by rewrite Nat.add_0_r|].
    rewrite Nat.add_0_r in Hb. rewrite Hb. simpl.
    destruct (IH (S i0) s1) as (s' & Hs' & HI).
    + by replace (S i0) with (i0 + 1) by lia.
    + intros k y s Hy HI. replace (S i0 + k) with (i0 + S k) by lia.
      replace (S i0 + S k) with (i0 + S (S k)) by lia.
      apply Hstep; [done|]. by replace (i0 + S k) with (S i0 + k) by lia.
    + exists s'. split; [done|]. by replace (i0 + S (length l)) with (S i0 + length l) by lia.
Qed.

(** The same rule when the body may raise: what holds if the loop ends. *)
Lemma for_enumerate_partial (body : nat → T → St → option St) (Inv : nat → St → Prop)
    (l : list T) (i0 : nat) (s0 s' : St) :
  Inv i0 s0 →
  (∀ k x s s1, l !! k = Some x → Inv (i0 + k) s →
     body (i0 + k) x s = Some s1 → Inv (i0 + S k) s1) →
  for_enumerate body i0 l s0 = Some s' →
  Inv (i0 + length l) s'.
Proof.
  revert i0 s0. induction l as [|x l IH]; intros i0 s0 H0 Hstep; simpl.
  - intros [= <-]. by rewrite Nat.add_0_r.
  - destruct (body i0 x s0) as [s1|] eqn:Hb; simpl; [|done].
    intros Hrun. replace (i0 + S (length l)) with (S i0 + length l) by lia.
    apply (IH (S i0) s1); [| |done].
    + replace (S i0) with (i0 + 1) by lia.
      apply (Hstep 0 x s0); [done|by rewrite Nat.add_0_r|by rewrite Nat.add_0_r].
    + intros k y s s2 Hy HI Hb2. replace (S i0 + S k) with (i0 + S (S k)) by lia.
      apply (Hstep (S k) y s); [done| |]; by replace (i0 + S k) with (S i0 + k) by lia.
Qed.
End loops.

(** ** Arrays *)

Section array_facts.
Context {T : Type}.
Implicit Types (a : ndarray2 T) (u : list T).

Lemma wf2_zeros2 (z : T) n m : wf2 (zeros2 z n m).
Proof. unfold wf2, zeros2; simpl. by rewrite length_replicate. Qed.

Lemma set2_shape a i j v a' :
  set2 a i j v = Some a' → nrows a' = nrows a ∧ ncols a' = ncols a.
Proof. unfold set2. case_bool_decide; [|done]. by intros [= <-]. Qed.

Lemma set2_wf a i j v a' : wf2 a → set2 a i j v = Some a' → wf2 a'.
Proof.
  unfold set2, wf2. case_bool_decide; [|done]. intros Hw [= <-]; simpl.
  by rewrite length_insert.
Qed.

Lemma set2_in_range a i j v :
  i < nrows a → j < ncols a → is_Some (set2 a i j v).
Proof. intros Hi Hj. unfold set2. rewrite bool_decide_eq_true_2; [eauto|done]. Qed.

Lemma cell_index_inj m i j i' j' :
  j < m → j' < m → i * m + j = i' * m + j' → i = i' ∧ j = j'.
Proof.
  intros Hj Hj' Heq.
  destruct (Nat.lt_trichotomy i i') as [Hlt|[->|Hlt]].
  - assert (S i * m ≤ i' * m) by (apply Nat.mul_le_mono_r; lia). lia.
  - lia.
  - assert (S i' * m ≤ i * m) by (apply Nat.mul_le_mono_r; lia). lia.
Qed.

Lemma cell_index_lt n m i j : i < n → j < m → i * m + j < n * m.
Proof. intros Hi Hj. nia. Qed.

Lemma get2_set2_eq a i j v a' :
  wf2 a → set2 a i j v = Some a' → get2 a' i j = Some v.
Proof.
  unfold set2, get2, wf2. case_bool_decide as Hr; [|done].
  intros Hw [= <-]; simpl. rewrite bool_decide_eq_true_2 by done.
  apply list_lookup_insert_eq. rewrite Hw. apply cell_index_lt; tauto.
Qed.

Lemma get2_set2_ne a i j v a' i' j' :
  (i', j') ≠ (i, j) → set2 a i j v = Some a' → get2 a' i' j' = get2 a i' j'.
Proof.
  unfold set2, get2. case_bool_decide as Hr; [|done].
  intros Hne [= <-]; simpl. case_bool_decide as Hr'; [|done].
  apply list_lookup_insert_ne. intros Heq.
  apply cell_index_inj in Heq as [-> ->]; tauto.
Qed.

Lemma set1_length u i v u' : set1 u i v = Some u' → length u' = length u.
Proof. unfold set1. case_bool_decide; [|done]. intros [= <-]. apply length_insert. Qed.

Lemma set1_in_range u i v : i < length u → is_Some (set1 u i v).
Proof. intros Hi. unfold set1. rewrite bool_decide_eq_true_2; [eauto|done]. Qed.

Lemma lookup_set1_eq u i v u' : set1 u i v = Some u' → u' !! i = Some v.
Proof.
  unfold set1. case_bool_decide; [|done]. intros [= <-].
  by apply list_lookup_insert_eq.
Qed.

Lemma lookup_set1_ne u i v u' i' : i' ≠ i → set1 u i v = Some u' → u' !! i' = u !! i'.
Proof.
  unfold set1. case_bool_decide; [|done]. intros Hne [= <-].
  by apply list_lookup_insert_ne.
Qed.

(** An array of a shape with no cells is the array of zeros of that shape. *)
Lemma wf2_no_columns (z : T) a : wf2 a → ncols a = 0 → a = zeros2 z (nrows a) 0.
Proof.
  destruct a as [n m cs]; unfold wf2, zeros2; simpl. intros Hw ->.
  rewrite Nat.mul_0_r in *. by destruct cs.
Qed.

Lemma lookup_row a i j :
  wf2 a → i < nrows a → j < ncols a → row a i !! j = get2 a i j.
Proof.
  intros Hw Hi Hj. unfold row, get2. rewrite bool_decide_eq_true_2 by done.
  rewrite lookup_take_lt by done. by rewrite lookup_drop.
Qed.

Lemma length_row a i : wf2 a → i < nrows a → length (row a i) = ncols a.
Proof.
  intros Hw Hi. unfold row. rewrite length_take, length_drop, Hw. nia.
Qed.
End array_facts.

(** ** The coefficient dictionary *)

Section dict_facts.
Context {K : Type} `{!Scalar K}.
Implicit Types (d : defaultdict K) (k t : operator K) (c v : K).

Lemma dd_lookup_setitem d k v k' :
  dd_lookup (dd_setitem d k v) k' = if decide (k = k') then Some v else dd_lookup d k'.
Proof.
  induction d as [|[k0 v0] d IH]; simpl.
  - by repeat case_decide.
  - destruct (decide (k0 = k)) as [->|Hne]; simpl.
    + by repeat case_decide.
    + rewrite IH. repeat case_decide; congruence.
Qed.

Lemma dd_get_lookup d k : dd_get d k = default kzero (dd_lookup d k).
Proof. unfold dd_get, dd_getitem. by destruct (dd_lookup d k). Qed.

(** Reading a key leaves every reading of the dictionary as it was. *)
Lemma dd_get_getitem d k k' : dd_get (dd_getitem d k).2 k' = dd_get d k'.
Proof.
  rewrite !dd_get_lookup. unfold dd_getitem.
  destruct (dd_lookup d k) eqn:E; simpl; [done|].
  rewrite dd_lookup_setitem. case_decide; [|done]. subst. by rewrite E.
Qed.

Lemma dd_getitem_value d k : (dd_getitem d k).1 = dd_get d k.
Proof. done. Qed.

Lemma dd_lookup_iadd d k c k' :
  dd_lookup (dd_iadd d k c) k' =
    if decide (k = k') then Some (kadd (dd_get d k) c) else dd_lookup d k'.
Proof.
  unfold dd_iadd, dd_get, dd_getitem.
  destruct (dd_lookup d k) eqn:E; simpl; rewrite !dd_lookup_setitem;
    repeat case_decide; congruence.
Qed.

Lemma dd_get_iadd d k c k' :
  dd_get (dd_iadd d k c) k' = if decide (k = k') then kadd (dd_get d k) c else dd_get d k'.
Proof.
  rewrite (dd_get_lookup (dd_iadd d k c)), dd_lookup_iadd.
  case_decide; simpl; [done|]. by rewrite dd_get_lookup.
Qed.
End dict_facts.

(** ** [get_coeffs]: which addends reach a key *)

Section get_coeffs_facts.
Context {K : Type} `{!Scalar K} `{!Engine K}.
Implicit Types (d : defaultdict K) (e t : operator K) (c : K) (l : list (operator K)).

Lemma get_coeffs_step_kept epsilon d e :
  kept epsilon e = true →
  get_coeffs_step epsilon d e = dd_iadd d (_coeff_term e).2 (_coeff_term e).1.
Proof.
  unfold kept, get_coeffs_step. destruct (_coeff_term e) as [c t]; simpl.
  by destruct (truncated c epsilon).
Qed.

Lemma get_coeffs_step_dropped epsilon d e :
  kept epsilon e = false → get_coeffs_step epsilon d e = d.
Proof.
  unfold kept, get_coeffs_step. destruct (_coeff_term e) as [c t]; simpl.
  by destruct (truncated c epsilon).
Qed.

Lemma lookup_foldl_step epsilon t l d :
  dd_lookup (foldl (get_coeffs_step epsilon) d l) t =
    match contributions epsilon t l with
    | [] => dd_lookup d t
    | cs => Some (foldl kadd (dd_get d t) cs)
    end.
Proof.
  revert d. induction l as [|e l IH]; intros d; simpl; [done|].
  rewrite IH. unfold contributions at 2. simpl. fold (contributions epsilon t l).
  destruct (kept epsilon e) eqn:Hk; simpl.
  - rewrite (get_coeffs_step_kept _ _ _ Hk).
    rewrite dd_lookup_iadd, dd_get_iadd.
    case_bool_decide as Ht; simpl.
    + rewrite !decide_True by done. rewrite Ht.
      by destruct (contributions epsilon t l).
    + by rewrite !decide_False by done.
  - by rewrite (get_coeffs_step_dropped _ _ _ Hk).
Qed.

(** The entry of [get_coeffs] at a key: absent when no kept addend has
    that term, else the sum of the coefficients of those that do. *)
Lemma get_coeffs_lookup e epsilon t :
  dd_lookup (get_coeffs e false epsilon) t =
    match contributions epsilon t (addends e) with
    | [] => None
    | cs => Some (ksum cs)
    end.
Proof. unfold get_coeffs. by rewrite lookup_foldl_step. Qed.

Lemma get_coeffs_get e epsilon t :
  dd_get (get_coeffs e false epsilon) t = ksum (contributions epsilon t (addends e)).
Proof.
  rewrite dd_get_lookup, get_coeffs_lookup.
  by destruct (contributions epsilon t (addends e)).
Qed.

Lemma get_coeffs_expand e epsilon :
  get_coeffs e true epsilon = get_coeffs (expand e) false epsilon.
Proof. done. Qed.


Lemma kept_0 e : kept 0%Qc e = true.
Proof.
  unfold kept, truncated. destruct (to_complex _); [|done].
  unfold C.abs_lt. by rewrite bool_decide_eq_false_2.
Qed.

Lemma contributions_cons epsilon t e l :
  contributions epsilon t (e :: l) =
    (if kept epsilon e && bool_decide ((_coeff_term e).2 = t)
     then [(_coeff_term e).1] else []) ++ contributions epsilon t l.
Proof.
  unfold contributions; simpl.
  by destruct (kept epsilon e && bool_decide ((_coeff_term e).2 = t)).
Qed.

Lemma contributions_filter epsilon t l :
  contributions epsilon t l = contributions 0%Qc t (filter (λ e, kept epsilon e = true) l).
Proof.
  induction l as [|e l IH]; [done|].
  destruct (kept epsilon e) eqn:Hk.
  - rewrite filter_cons_True by done.
    by rewrite !contributions_cons, Hk, kept_0, IH.
  - rewrite filter_cons_False by (by rewrite Hk).
    by rewrite contributions_cons, Hk.
Qed.

Lemma elem_of_contributions epsilon t l c :
  c ∈ contributions epsilon t l ↔
  ∃ e, e ∈ l ∧ kept epsilon e = true ∧ _coeff_term e = (c, t).
Proof.
  unfold contributions. rewrite list_elem_of_omap. split.
  - intros (e & He & Hc). exists e. split; [done|].
    destruct (kept epsilon e); simpl in Hc; [|done].
    case_bool_decide; [|done]. injection Hc as <-. split; [done|].
    destruct (_coeff_term e); simpl in *; congruence.
  - intros (e & He & Hk & Hct). exists e. split; [done|].
    rewrite Hk, Hct; simpl. by rewrite bool_decide_eq_true_2.
Qed.
End get_coeffs_facts.

(** ** Sums of coefficients, on exact scalars *)

Section sums.
Context {K : Type} `{!Scalar K} `{!ScalarLaws K}.
Implicit Types (c : K) (cs : list K).

Lemma foldl_kadd_start c cs : foldl kadd c cs = kadd c (ksum cs).
Proof.
  unfold ksum. revert c. induction cs as [|x cs IH]; intros c; simpl.
  - by rewrite kadd_0_r.
  - rewrite (IH (kadd c x)), (IH (kadd kzero x)), kadd_0_l. by rewrite kadd_assoc.
Qed.

Lemma ksum_cons c cs : ksum (c :: cs) = kadd c (ksum cs).
Proof. unfold ksum at 1; simpl. by rewrite foldl_kadd_start, kadd_0_l. Qed.

Lemma ksum_singleton c : ksum [c] = c.
Proof. unfold ksum; simpl. apply kadd_0_l. Qed.


Lemma ksum_Permutation cs1 cs2 : cs1 ≡ₚ cs2 → ksum cs1 = ksum cs2.
Proof.
  induction 1 as [|x l l' _ IH|x y l|l l' l'' _ IH1 _ IH2].
  - done.
  - by rewrite !ksum_cons, IH.
  - rewrite !ksum_cons, !kadd_assoc. by rewrite (kadd_comm x y).
  - congruence.
Qed.
End sums.

(** The stand-in scalars are exact. *)
Module MockLaws.
Import Mock.
Local Open Scope Qc_scope.

Lemma Cx_eq (z w : Cx) : Re z = Re w → Im z = Im w → z = w.
Proof. destruct z, w; simpl; congruence. Qed.

Lemma C_add_0_l z : C.add C.zero z = z.
Proof. apply Cx_eq; simpl; ring. Qed.

Lemma C_add_0_r z : C.add z C.zero = z.
Proof. apply Cx_eq; simpl; ring. Qed.

Lemma C_add_assoc x y z : C.add x (C.add y z) = C.add (C.add x y) z.
Proof. apply Cx_eq; simpl; ring. Qed.

Lemma C_add_comm x y : C.add x y = C.add y x.
Proof. apply Cx_eq; simpl; ring. Qed.

Lemma C_div_0 z : C.div C.zero z = C.zero.
Proof. apply Cx_eq; unfold C.div, C.div_real, Qcdiv; simpl; ring. Qed.

Lemma scalar_eq (a b : scalar) : num a = num b → sym a = sym b → a = b.
Proof. destruct a, b; simpl; congruence. Qed.

Global Instance scalar_laws : ScalarLaws scalar.
Proof.
  split; intros; apply scalar_eq; simpl;
    auto using C_add_0_l, C_add_0_r, C_add_assoc, C_add_comm, C_div_0.
Defined.
End MockLaws.

(** ** [get_coeffs]: truncation and additivity *)

Section get_coeffs_claims.
Context {K : Type} `{!Scalar K} `{!Engine K}.
Implicit Types (d : defaultdict K) (e a t : operator K) (c : K) (l : list (operator K)).

Lemma foldl_step_filter epsilon d l :
  foldl (get_coeffs_step epsilon) d l =
  foldl (get_coeffs_step 0%Qc) d (filter (λ a, kept epsilon a = true) l).
Proof.
  revert d. induction l as [|a l IH]; intros d; [done|]. simpl.
  destruct (kept epsilon a) eqn:Hk.
  - rewrite filter_cons_True by done. simpl.
    rewrite (get_coeffs_step_kept _ _ _ Hk), (get_coeffs_step_kept _ _ _ (kept_0 a)).
    apply IH.
  - rewrite filter_cons_False by (by rewrite Hk).
    rewrite (get_coeffs_step_dropped _ _ _ Hk). apply IH.
Qed.

Lemma kept_false_iff epsilon a :
  (0 < epsilon)%Qc →
  kept epsilon a = false ↔
  ∃ z, to_complex (coeff_of a) = Some z
       ∧ (Re z * Re z + Im z * Im z < epsilon * epsilon)%Qc.
Proof.
  intros Hpos. unfold kept, truncated, coeff_of, C.abs_lt.
  rewrite negb_false_iff. destruct (to_complex _) as [z|].
  - rewrite andb_true_iff, !bool_decide_eq_true. split.
    + intros [_ Hlt]. by exists z.
    + intros (z' & [= <-] & Hlt). done.
  - split; [done|]. by intros (z & ? & _).
Qed.

Lemma kept_symbolic epsilon a : to_complex (coeff_of a) = None → kept epsilon a = true.
Proof. unfold kept, truncated, coeff_of. by intros ->. Qed.

Lemma contributions_filter_map epsilon t l :
  contributions epsilon t l =
  coeff_of <$> filter (λ a, kept epsilon a = true ∧ term_of a = t) l.
Proof.
  induction l as [|a l IH]; [done|]. rewrite contributions_cons, IH.
  destruct (kept epsilon a) eqn:Hk; simpl.
  - case_bool_decide as Ht.
    + by rewrite filter_cons_True by done.
    + rewrite filter_cons_False; [done|]. by intros [_ ?].
  - rewrite filter_cons_False; [done|]. intros [? _]; congruence.
Qed.

Lemma contributions_nil epsilon t l :
  (∀ a, a ∈ l → term_of a = t → kept epsilon a = false) →
  contributions epsilon t l = [].
Proof.
  intros Hall. induction l as [|a l IH]; [done|]. rewrite contributions_cons.
  rewrite IH by (intros b Hb; apply Hall; by right).
  destruct (kept epsilon a) eqn:Hk; simpl; [|done].
  case_bool_decide as Ht; [|done].
  specialize (Hall a (list_elem_of_here _ _) Ht). congruence.
Qed.

Lemma get_coeffs_present e epsilon a :
  a ∈ addends e → kept epsilon a = true →
  ∃ cs, coeff_of a ∈ cs
        ∧ dd_lookup (get_coeffs e false epsilon) (term_of a) = Some (ksum cs).
Proof.
  intros Ha Hk. exists (contributions epsilon (term_of a) (addends e)).
  assert (coeff_of a ∈ contributions epsilon (term_of a) (addends e)) as Hin.
  { apply elem_of_contributions. exists a. repeat split; [done..|].
    unfold coeff_of, term_of. by destruct (_coeff_term a). }
  split; [done|]. rewrite get_coeffs_lookup.
  destruct (contributions _ _ _); [by apply elem_of_nil in Hin|done].
Qed.

(** Without truncation a key reads the sum of the coefficients of all the
    addends with that term. *)
Lemma get_coeffs_get_0 e t :
  dd_get (get_coeffs e false 0%Qc) t =
  ksum (coeff_of <$> filter (λ a, term_of a = t) (addends e)).
Proof.
  rewrite get_coeffs_get, contributions_filter_map. f_equal. f_equal.
  apply list_filter_iff. intros a. rewrite kept_0. tauto.
Qed.

(** C5: an addend whose coefficient does not coerce to a complex number
    (the coercion raises, [to_complex] is [None]) is kept by [get_coeffs]
    for every [epsilon], in particular for every positive one: it passes
    the truncation test, and the entry at its term exists and is the sum of
    a list of coefficients that contains its own.  [get_coeffs] is a total
    function: the failed coercion yields a dictionary, not an error. *)
Theorem get_coeffs_keeps_symbolic e (expand_first : bool) (epsilon : Qc) a :
  a ∈ addends (if expand_first then expand e else e) →
  to_complex (coeff_of a) = None →
  kept epsilon a = true
  ∧ ∃ cs, coeff_of a ∈ cs
          ∧ dd_lookup (get_coeffs e expand_first epsilon) (term_of a) = Some (ksum cs).
Proof.
  intros Ha Hsym. pose proof (kept_symbolic epsilon a Hsym) as Hk.
  split; [done|]. destruct expand_first.
  - rewrite get_coeffs_expand. by apply get_coeffs_present.
  - by apply get_coeffs_present.
Qed.

Context `{!ScalarLaws K}.

(** C3, as amended: for every expression and every [epsilon],
    [get_coeffs] drops exactly the addends that fail the truncation test:
    its result is the coefficient map, built without truncation, of the
    sum of the other addends.  For [epsilon > 0] the dropped addends are
    those whose coefficient coerces to a complex number of magnitude
    strictly less than [epsilon].  A term all of whose addends are dropped
    is absent and reads as the default zero; a term with exactly one kept
    addend is present with the exact coefficient of that addend, be it
    zero.  For [epsilon = 0] no addend is dropped and the term of every
    addend is a key of the result. *)
Theorem get_coeffs_truncation e (epsilon : Qc) :
  get_coeffs e false epsilon =
    get_coeffs (OperatorPlus (filter (λ a, kept epsilon a = true) (addends e))) false 0%Qc
  ∧ ((0 < epsilon)%Qc → ∀ a,
      kept epsilon a = false ↔
      ∃ z, to_complex (coeff_of a) = Some z
           ∧ (Re z * Re z + Im z * Im z < epsilon * epsilon)%Qc)
  ∧ (∀ t, (∀ a, a ∈ addends e → term_of a = t → kept epsilon a = false) →
       dd_lookup (get_coeffs e false epsilon) t = None
       ∧ dd_get (get_coeffs e false epsilon) t = kzero)
  ∧ (∀ t a,
       filter (λ b, kept epsilon b = true ∧ term_of b = t) (addends e) = [a] →
       dd_lookup (get_coeffs e false epsilon) t = Some (coeff_of a))
  ∧ (epsilon = 0%Qc → ∀ a, a ∈ addends e →
       kept epsilon a = true
       ∧ is_Some (dd_lookup (get_coeffs e false epsilon) (term_of a))).
Proof.
  repeat split.
  - unfold get_coeffs; simpl. apply foldl_step_filter.
  - by apply kept_false_iff.
  - by apply kept_false_iff.
  - rewrite get_coeffs_lookup, contributions_nil; done.
  - rewrite get_coeffs_get, contributions_nil; done.
  - intros t a Hone. rewrite get_coeffs_lookup, contributions_filter_map, Hone.
    simpl. by rewrite ksum_singleton.
  - subst. apply kept_0.
  - subst. destruct (get_coeffs_present e 0%Qc a) as (cs & _ & ->); [done|apply kept_0|done].
Qed.



End get_coeffs_claims.

(** ** [get_coeffs] on concrete sums *)

Module GetCoeffsExamples.
Import Mock MockLaws Inputs.

(** Two scalars with different real numerators of the numeric part differ. *)
Lemma scalar_neq (x y : scalar) :
  Qnum (this (Re (num x))) ≠ Qnum (this (Re (num y))) → x ≠ y.
Proof. intros Hne ->. by apply Hne. Qed.

(** On [0.001 a + 5 b] with [epsilon = 0.01] the addend of [a] is dropped
    and [b] keeps its coefficient. *)
Lemma get_coeffs_truncation_witness :
  ScalarLaws scalar
  ∧ dd_lookup (get_coeffs small_a_plus_b false eps) a_c = None
  ∧ dd_lookup (get_coeffs small_a_plus_b false eps) b_d = Some (number 5 0).
Proof.
  split; [apply _|].
  destruct (get_coeffs_truncation small_a_plus_b eps) as (_ & _ & Hdrop & Hone & _).
  split.
  - apply Hdrop. intros a Ha Ht.
    apply list_elem_of_In in Ha. destruct Ha as [<-|[<-|[]]].
    + vm_compute. reflexivity.
    + discriminate Ht.
  - apply (Hone b_d (ScalarTimesOperator (number 5 0) b_d)).
    vm_compute. reflexivity.
Defined.

(** The claim as it was stated fails on sums that repeat a term.  In
    [0.001 a + 5 a] with [epsilon = 0.01] the first addend has a numeric
    coefficient of magnitude below [epsilon] and is dropped, yet its term
    [a] does not read the default zero: it reads 5.  In [3 a + 5 a] with
    the same [epsilon] both addends have magnitude above [epsilon] and
    are kept, yet [a] is present with neither coefficient: it reads 8. *)
Lemma get_coeffs_truncation_counterexample :
  (ScalarTimesOperator (ratio 1 1000) a_c ∈ addends small_a_plus_a
   ∧ truncated (ratio 1 1000) eps = true
   ∧ dd_get (get_coeffs small_a_plus_a false eps) a_c = number 5 0
   ∧ dd_get (get_coeffs small_a_plus_a false eps) a_c ≠ kzero)
  ∧ (ScalarTimesOperator (number 3 0) a_c ∈ addends three_a_plus_five_a
     ∧ truncated (number 3 0) eps = false
     ∧ dd_lookup (get_coeffs three_a_plus_five_a false eps) a_c = Some (number 8 0)
     ∧ dd_lookup (get_coeffs three_a_plus_five_a false eps) a_c ≠ Some (number 3 0)).
Proof.
  assert (dd_get (get_coeffs small_a_plus_a false eps) a_c = number 5 0) as H5.
  { apply scalar_eq; apply Cx_eq; apply Qc_is_canon; reflexivity. }
  assert (dd_lookup (get_coeffs three_a_plus_five_a false eps) a_c = Some (number 8 0)) as H8.
  { change (dd_lookup (get_coeffs three_a_plus_five_a false eps) a_c)
      with (Some (kadd (kadd kzero (number 3 0)) (number 5 0))).
    apply (f_equal Some). apply scalar_eq; apply Cx_eq; apply Qc_is_canon; reflexivity. }
  split; (split; [apply list_elem_of_here|]); (split; [vm_compute; reflexivity|]).
  - split; [exact H5|]. rewrite H5. apply scalar_neq. vm_compute. discriminate.
  - split; [exact H8|]. rewrite H8. intros Heq.
    apply (f_equal (default kzero)) in Heq. revert Heq.
    apply scalar_neq. vm_compute. discriminate.
Qed.


(** In [κ a + 0.001 a] with [epsilon = 0.01], the addend [κ a] is kept. *)
Lemma get_coeffs_keeps_symbolic_witness :
  let a := ScalarTimesOperator (symbolic 1 0) a_c in
  a ∈ addends symbolic_a
  ∧ to_complex (coeff_of a) = None
  ∧ kept eps a = true
  ∧ ∃ cs, coeff_of a ∈ cs
          ∧ dd_lookup (get_coeffs symbolic_a false eps) (term_of a) = Some (ksum cs).
Proof.
  intros a.
  assert (a ∈ addends symbolic_a) as Hin by apply list_elem_of_here.
  assert (to_complex (coeff_of a) = None) as Hsym by (vm_compute; reflexivity).
  split; [exact Hin|]. split; [exact Hsym|].
  exact (get_coeffs_keeps_symbolic symbolic_a false eps a Hin Hsym).
Defined.
End GetCoeffsExamples.

(** ** The loops of [model_matrices] *)

Section fill.
Context {K : Type} `{!Scalar K}.
Implicit Types (a : ndarray2 K) (d : defaultdict K).

Lemma same_reads_getitem d d' k : same_reads d d' → same_reads (dd_getitem d k).2 d'.
Proof. intros Hs k'. rewrite dd_get_getitem. apply Hs. Qed.

Lemma shaped_zeros2 n m : shaped (zeros2 kzero n m) n m.
Proof. repeat split. apply wf2_zeros2. Qed.

Lemma filled_start a f : filled a f 0 0.
Proof. intros r c _ [?|[_ ?]]; lia. Qed.

Lemma filled_next_row a f jj : filled a f jj (ncols a) → filled a f (S jj) 0.
Proof.
  intros Hf r c Hc [Hr|[_ ?]]; [|lia]. apply Hf; [done|].
  destruct (decide (r = jj)) as [->|]; [right; done|left; lia].
Qed.

Lemma filled_set a f jj kk n m v :
  shaped a n m → jj < n → kk < m → filled a f jj kk → v = f jj kk →
  ∃ a', set2 a jj kk v = Some a' ∧ shaped a' n m ∧ filled a' f jj (S kk).
Proof.
  intros (Hn & Hm & Hw) Hjj Hkk Hf ->.
  destruct (set2_in_range a jj kk (f jj kk)) as [a' Ha']; [lia..|].
  exists a'. destruct (set2_shape _ _ _ _ _ Ha') as [Hn' Hm'].
  split; [done|]. split.
  - repeat split; [congruence..|]. by eapply set2_wf.
  - intros r c Hc Hrc. destruct (decide ((r, c) = (jj, kk))) as [[= -> ->]|Hne].
    + by eapply get2_set2_eq.
    + rewrite (get2_set2_ne _ _ _ _ _ _ _ Hne Ha'). apply Hf; [congruence|].
      destruct Hrc as [?|[-> ?]]; [by left|right]. split; [done|].
      destruct (decide (c = kk)) as [->|]; [done|lia].
Qed.

Lemma filled_get a f n m r c :
  shaped a n m → filled a f n 0 → r < n → c < m → get2 a r c = Some (f r c).
Proof. intros (_ & Hm & _) Hf Hr Hc. apply Hf; [lia|by left]. Qed.

Lemma fill_row_total {T : Type} (key : T → operator K) (post : K → K)
    (f : nat → nat → K) jj (xs : list T) d0 a0 dref n :
  shaped a0 n (length xs) → jj < n → same_reads d0 dref → filled a0 f jj 0 →
  (∀ kk x, xs !! kk = Some x → f jj kk = post (dd_get dref (key x))) →
  ∃ d a, for_enumerate (fill_body key post jj) 0 xs (d0, a0) = Some (d, a)
         ∧ shaped a n (length xs) ∧ same_reads d dref ∧ filled a f (S jj) 0.
Proof.
  intros Hsh Hjj Hd Hf Hspec.
  destruct (for_enumerate_inv (fill_body key post jj)
              (λ kk s, same_reads s.1 dref ∧ shaped s.2 n (length xs) ∧ filled s.2 f jj kk)
              xs 0 (d0, a0)) as ([d a] & Hrun & Hd' & Hsh' & Hf'); simpl in *.
  - done.
  - intros kk x [d a] Hx (Hda & Hsha & Hfa); simpl in *.
    pose proof (lookup_lt_Some _ _ _ Hx) as Hkk.
    unfold fill_body. destruct (dd_getitem d (key x)) as [v d1] eqn:Hget.
    destruct (filled_set a f jj kk n (length xs) (post v)) as (a' & -> & Hsha' & Hfa');
      [done..| |].
    + rewrite (Hspec kk x Hx). f_equal.
      change v with (v, d1).1. rewrite <-Hget. rewrite dd_getitem_value. apply Hda.
    + simpl. eexists; split; [done|]. simpl. split; [|done].
      change d1 with (v, d1).2. rewrite <-Hget. by apply same_reads_getitem.
  - exists d, a. split; [done|]. split; [done|]. split; [done|].
    apply filled_next_row. by destruct Hsh' as (_ & -> & _).
Qed.

(** When the loop ends, the array has the shape it had. *)
Lemma fill_row_shape {T : Type} (key : T → operator K) (post : K → K)
    jj i (xs : list T) d0 a0 d a n m :
  for_enumerate (fill_body key post jj) i xs (d0, a0) = Some (d, a) →
  shaped a0 n m → shaped a n m.
Proof.
  revert i d0 a0. induction xs as [|x xs IH]; intros i d0 a0; simpl.
  - by intros [= _ <-].
  - unfold fill_body at 1. destruct (dd_getitem d0 (key x)) as [v d1].
    destruct (set2 a0 jj i (post v)) as [a1|] eqn:Hset; simpl; [|done].
    intros Hrun (Hn & Hm & Hw). apply (IH _ _ _ Hrun).
    destruct (set2_shape _ _ _ _ _ Hset) as [Hn' Hm'].
    repeat split; [congruence..|]. by eapply set2_wf.
Qed.
End fill.

Lemma bind_total {A B : Type} (m : option A) (k : A → option B) (Q : B → Prop) (x : A) :
  m = Some x → (∃ y, k x = Some y ∧ Q y) → ∃ y, m ≫= k = Some y ∧ Q y.
Proof. intros -> Hk. exact Hk. Qed.

Section mode_loop.
Context {K : Type} `{!Scalar K} `{!Engine K}.
Variables (modes : list hs) (noises inputs eoms : list (operator K)) (epsilon : Qc).
Hypothesis eoms_length : length eoms = length modes.

Let ncav := length modes.

(** The loop over the modes that fills row [jj] of [A] and of [A_kerr]. *)
Lemma kerr_loop_total jj sjj d0 (A0 Ak0 : ndarray2 K) dref (fA fK : nat → nat → K) :
  jj < ncav → same_reads d0 dref →
  shaped A0 ncav ncav → filled A0 fA jj 0 →
  shaped Ak0 ncav ncav → filled Ak0 fK jj 0 →
  (∀ kk skk, modes !! kk = Some skk → fA jj kk = dd_get dref (Destroy skk)) →
  (∀ kk skk, modes !! kk = Some skk →
     fK jj kk = kdiv (dd_get dref (kerr_term skk sjj)) (C.neg C.two_j)) →
  ∃ s, for_enumerate (λ kk skk '(coeffsjj, A, A_kerr),
          let '(v, coeffsjj) := dd_getitem coeffsjj (Destroy skk) in
          A ← set2 A jj kk v;
          let '(v, coeffsjj) := dd_getitem coeffsjj (kerr_term skk sjj) in
          A_kerr ← set2 A_kerr jj kk (kdiv v (C.neg C.two_j));
          Some (coeffsjj, A, A_kerr))
        0 modes (d0, A0, Ak0) = Some s
      ∧ same_reads s.1.1 dref
      ∧ (shaped s.1.2 ncav ncav ∧ filled s.1.2 fA (S jj) 0)
      ∧ (shaped s.2 ncav ncav ∧ filled s.2 fK (S jj) 0).
Proof.
  intros Hjj Hd HshA HfA HshK HfK HspecA HspecK.
  match goal with |- ∃ s, for_enumerate ?body _ _ _ = _ ∧ _ =>
    destruct (for_enumerate_inv body
      (λ kk s, same_reads s.1.1 dref
               ∧ (shaped s.1.2 ncav ncav ∧ filled s.1.2 fA jj kk)
               ∧ (shaped s.2 ncav ncav ∧ filled s.2 fK jj kk))
      modes 0 (d0, A0, Ak0)) as (s & Hrun & Hd' & [HshA' HfA'] & [HshK' HfK'])
  end; simpl in *.
  - done.
  - intros kk skk [[d A] Ak] Hskk (Hda & [HsA HflA] & [HsK HflK]); simpl in *.
    pose proof (lookup_lt_Some _ _ _ Hskk) as Hkk.
    destruct (dd_getitem d (Destroy skk)) as [v d1] eqn:Hget1.
    assert (same_reads d1 dref) as Hd1.
    { change d1 with (v, d1).2. rewrite <-Hget1. by apply same_reads_getitem. }
    destruct (filled_set A fA jj kk ncav ncav v) as (A' & -> & HsA' & HflA'); [done..| |].
    { rewrite (HspecA kk skk Hskk). change v with (v, d1).1.
      rewrite <-Hget1, dd_getitem_value. apply Hda. }
    simpl. destruct (dd_getitem d1 (kerr_term skk sjj)) as [w d2] eqn:Hget2.
    destruct (filled_set Ak fK jj kk ncav ncav (kdiv w (C.neg C.two_j)))
      as (Ak' & -> & HsK' & HflK'); [done..| |].
    { rewrite (HspecK kk skk Hskk). f_equal. change w with (w, d2).1.
      rewrite <-Hget2, dd_getitem_value. apply Hd1. }
    simpl. eexists; split; [done|]. simpl. split; [|done].
    change d2 with (w, d2).2. rewrite <-Hget2. by apply same_reads_getitem.
  - exists s. split; [done|]. split; [done|].
    split; (split; [done|]); apply filled_next_row.
    + by destruct HshA' as (_ & -> & _).
    + by destruct HshK' as (_ & -> & _).
Qed.

Lemma mode_at_lookup c s : modes !! c = Some s → mode_at modes c = s.
Proof. unfold mode_at. by intros ->. Qed.

(** One turn of the first loop never raises and fills one more row. *)
Lemma mode_row_total jj sjj st :
  modes !! jj = Some sjj → mode_inv modes noises inputs eoms epsilon jj st →
  ∃ st', mode_row modes noises inputs eoms epsilon jj sjj st = Some st'
         ∧ mode_inv modes noises inputs eoms epsilon (S jj) st'.
Proof.
  intros Hsjj ([HsA HfA] & [HsK HfK] & [HsB HfB] & [HsI HfI] & [Hlen Hu]).
  pose proof (lookup_lt_Some _ _ _ Hsjj) as Hjj.
  destruct (lookup_lt_is_Some_2 eoms jj) as [eom Heom]; [by rewrite eoms_length|].
  assert (coeffs_at eoms epsilon jj = get_coeffs eom false epsilon) as Hc.
  { unfold coeffs_at. by rewrite Heom. }
  unfold mode_row. rewrite Heom. simpl.
  destruct (kerr_loop_total jj sjj (get_coeffs eom false epsilon) (st_A st) (st_A_kerr st)
              (coeffs_at eoms epsilon jj) (A_entry modes eoms epsilon)
              (A_kerr_entry modes eoms epsilon))
    as ([[d1 A1] Ak1] & Hrun1 & Hd1 & [HsA1 HfA1] & [HsK1 HfK1]); [done| |done..| | |].
  { intros k. by rewrite Hc. }
  { intros kk skk Hskk. unfold A_entry. by rewrite (mode_at_lookup _ _ Hskk). }
  { intros kk skk Hskk. unfold A_kerr_entry.
    by rewrite (mode_at_lookup _ _ Hskk), (mode_at_lookup _ _ Hsjj). }
  eapply bind_total; [exact Hrun1|]. simpl in *.
  destruct (fill_row_total (λ x, x) (λ v, v) (B_entry noises eoms epsilon) jj noises d1
              (st_B st) (coeffs_at eoms epsilon jj) ncav) as (d2 & B2 & Hrun2 & HsB2 & Hd2 & HfB2); [done..| |].
  { intros kk x Hx. unfold B_entry. by rewrite Hx. }
  eapply bind_total; [exact Hrun2|]. simpl.
  destruct (fill_row_total (λ x, x) (λ v, v) (B_input_entry inputs eoms epsilon) jj inputs d2
              (st_B_input st) (coeffs_at eoms epsilon jj) ncav) as (d3 & I3 & Hrun3 & HsI3 & Hd3 & HfI3); [done..| |].
  { intros kk x Hx. unfold B_input_entry. by rewrite Hx. }
  eapply bind_total; [exact Hrun3|]. simpl.
  destruct (dd_getitem d3 IdentityOperator) as [v d4] eqn:Hget.
  destruct (set1_in_range (st_u_c st) jj v) as [u' Hu']; [lia|].
  rewrite Hu'. simpl. eexists; split; [done|].
  do 4 (split; [done|]). simpl. split.
  - by rewrite (set1_length _ _ _ _ Hu').
  - intros r Hr. destruct (decide (r = jj)) as [->|Hne].
    + rewrite (lookup_set1_eq _ _ _ _ Hu'). f_equal. unfold u_c_entry.
      change v with (v, d4).1. rewrite <-Hget, dd_getitem_value. apply Hd3.
    + rewrite (lookup_set1_ne _ _ _ _ _ Hne Hu'). apply Hu. lia.
Qed.

(** The first loop never raises, and leaves every array filled. *)
Lemma mode_loop_total st0 :
  mode_inv modes noises inputs eoms epsilon 0 st0 →
  ∃ st, for_enumerate (mode_row modes noises inputs eoms epsilon) 0 modes st0 = Some st
        ∧ mode_inv modes noises inputs eoms epsilon ncav st.
Proof.
  intros H0.
  destruct (for_enumerate_inv (mode_row modes noises inputs eoms epsilon)
              (mode_inv modes noises inputs eoms epsilon) modes 0 st0) as (st & Hrun & Hinv); [done| |by exists st].
  intros k x s Hx Hinv. simpl in *. by apply mode_row_total.
Qed.
End mode_loop.

Section port_loop.
Context {K : Type} `{!Scalar K} `{!Engine K}.
Variables (modes : list hs) (inputs Ls : list (operator K)) (ncdim : nat).

Let ncav := length modes.

(** A turn of the second loop that does not raise keeps the shapes. *)
Lemma port_row_shapes jj Ljj pt pt' :
  port_row modes inputs jj Ljj pt = Some pt' →
  port_shapes modes inputs ncdim pt → port_shapes modes inputs ncdim pt'.
Proof.
  unfold port_row. intros Hrun (HsC & HsD & Hlen).
  destruct (for_enumerate _ 0 modes _) as [[d1 C1]|] eqn:Hrun1; simpl in Hrun; [|done].
  destruct (dd_getitem d1 IdentityOperator) as [v d2].
  destruct (set1 (st_U_c pt) jj v) as [U'|] eqn:HU; simpl in Hrun; [|done].
  destruct (for_enumerate _ 0 inputs _) as [[d3 D3]|] eqn:Hrun3; simpl in Hrun; [|done].
  injection Hrun as <-. split; [|split]; simpl.
  - exact (fill_row_shape (λ s, Destroy s) (λ v, v) _ _ _ _ _ _ _ _ _ Hrun1 HsC).
  - exact (fill_row_shape (λ x, x) (λ v, v) _ _ _ _ _ _ _ _ _ Hrun3 HsD).
  - by rewrite (set1_length _ _ _ _ HU).
Qed.

(** If the second loop ends, the arrays have the shapes they had. *)
Lemma port_loop_shapes pt0 pt :
  for_enumerate (port_row modes inputs) 0 Ls pt0 = Some pt →
  port_shapes modes inputs ncdim pt0 → port_shapes modes inputs ncdim pt.
Proof.
  intros Hrun H0.
  apply (for_enumerate_partial (port_row modes inputs) (λ _, port_shapes modes inputs ncdim)
           Ls 0 pt0 pt);
    [done| |done].
  intros k x s s1 _ Hs Hb. by eapply port_row_shapes.
Qed.

(** A turn of the second loop at a row of the arrays does not raise. *)
Lemma port_row_total jj Ljj pt :
  Ls !! jj = Some Ljj → jj < ncdim → port_inv modes inputs Ls ncdim jj pt →
  ∃ pt', port_row modes inputs jj Ljj pt = Some pt'
         ∧ port_inv modes inputs Ls ncdim (S jj) pt'.
Proof.
  intros HL Hjj ([HsC HfC] & [HsD HfD] & [Hlen HU]).
  assert (L_coeffs_at Ls jj = get_coeffs Ljj false 0%Qc) as Hc.
  { unfold L_coeffs_at. by rewrite HL. }
  unfold port_row.
  destruct (fill_row_total (λ s, Destroy s) (λ v, v) (C_entry modes Ls) jj modes
              (get_coeffs Ljj false 0%Qc) (st_C pt) (L_coeffs_at Ls jj) ncdim)
    as (d1 & C1 & Hrun1 & HsC1 & Hd1 & HfC1); [done|done| |done| |].
  { intros k. by rewrite Hc. }
  { intros kk x Hx. unfold C_entry. by rewrite (mode_at_lookup _ _ _ Hx). }
  eapply bind_total; [exact Hrun1|]. simpl.
  destruct (dd_getitem d1 IdentityOperator) as [v d2] eqn:Hget.
  assert (same_reads d2 (L_coeffs_at Ls jj)) as Hd2.
  { change d2 with (v, d2).2. rewrite <-Hget. by apply same_reads_getitem. }
  destruct (set1_in_range (st_U_c pt) jj v) as [U' HU']; [lia|].
  rewrite HU'. simpl.
  destruct (fill_row_total (λ x, x) (λ v, v) (D_input_entry inputs Ls) jj inputs d2
              (st_D_input pt) (L_coeffs_at Ls jj) ncdim) as (d3 & D3 & Hrun3 & HsD3 & Hd3 & HfD3); [done..| |].
  { intros kk x Hx. unfold D_input_entry. by rewrite Hx. }
  eapply bind_total; [exact Hrun3|]. simpl. eexists; split; [done|].
  do 2 (split; [done|]). simpl. split.
  - by rewrite (set1_length _ _ _ _ HU').
  - intros r Hr. destruct (decide (r = jj)) as [->|Hne].
    + rewrite (lookup_set1_eq _ _ _ _ HU'). f_equal. unfold U_c_entry.
      change v with (v, d2).1. rewrite <-Hget, dd_getitem_value. apply Hd1.
    + rewrite (lookup_set1_ne _ _ _ _ _ Hne HU'). apply HU. lia.
Qed.

(** On a coupling vector with one row per port the second loop does not
    raise. *)
Lemma port_loop_total pt0 :
  length Ls = ncdim → port_inv modes inputs Ls ncdim 0 pt0 →
  ∃ pt, for_enumerate (port_row modes inputs) 0 Ls pt0 = Some pt
        ∧ port_inv modes inputs Ls ncdim ncdim pt.
Proof.
  intros HLs H0.
  destruct (for_enumerate_inv (port_row modes inputs)
              (port_inv modes inputs Ls ncdim) Ls 0 pt0)
    as (pt & Hrun & Hinv); [done| |].
  - intros k x s Hx Hinv. simpl in *. apply port_row_total; [done| |done].
    rewrite <-HLs. by eapply lookup_lt_Some.
  - exists pt. split; [done|]. simpl in Hinv. by rewrite HLs in Hinv.
Qed.
End port_loop.

(** ** [model_matrices] *)

Section model_claims.
Context {K : Type} `{!Scalar K} `{!Engine K}.
Implicit Types (slh : SLH) (dip : gmap Z string) (r : model_matrices_result).

Lemma length_inputs_of dip : length (inputs_of (K:=K) dip) = size dip.
Proof.
  unfold inputs_of, sorted_items. rewrite length_fmap.
  rewrite (Permutation_length (merge_sort_Permutation item_le (map_to_list dip))).
  apply length_map_to_list.
Qed.

Lemma length_noises_of slh : length (noises_of slh) = cdim slh.
Proof. unfold noises_of. by rewrite length_fmap, length_seq. Qed.

Lemma length_eoms_of slh modes noises : length (eoms_of slh modes noises) = length modes.
Proof. unfold eoms_of. by rewrite length_fmap. Qed.

Lemma eoms_of_lookup slh_input modes noises jj sjj :
  modes !! jj = Some sjj →
  eoms_of slh_input modes noises !! jj = Some (eom_of slh_input noises sjj).
Proof. intros Hjj. unfold eoms_of. by rewrite list_lookup_fmap, Hjj. Qed.

(** The arrays as [np.zeros] makes them satisfy the invariant of the
    first loop, which therefore never raises, whatever [epsilon] is. *)
Lemma mode_loop_runs slh dip ext epsilon :
  ∃ st,
    for_enumerate
      (mode_row (modes_of slh) (noises_of slh) (inputs_of dip)
         (eoms_of (feed_inputs slh ext) (modes_of slh) (noises_of slh)) epsilon)
      0 (modes_of slh)
      (mk_mode_arrays (zeros2 kzero (length (modes_of slh)) (length (modes_of slh)))
         (zeros2 kzero (length (modes_of slh)) (length (modes_of slh)))
         (zeros2 kzero (length (modes_of slh)) (cdim slh))
         (zeros2 kzero (length (modes_of slh)) (size dip))
         (zeros1 kzero (length (modes_of slh)))) = Some st
    ∧ mode_inv (modes_of slh) (noises_of slh) (inputs_of dip)
        (eoms_of (feed_inputs slh ext) (modes_of slh) (noises_of slh)) epsilon
        (length (modes_of slh)) st.
Proof.
  apply mode_loop_total; [apply length_eoms_of|].
  rewrite <-length_inputs_of, <-length_noises_of.
  repeat split; simpl; try apply wf2_zeros2; try apply filled_start.
  - apply length_replicate.
  - lia.
Qed.

Lemma port_shapes_init slh dip :
  port_shapes (modes_of slh) (inputs_of dip) (cdim slh)
    (mk_port_arrays (zeros2 kzero (cdim slh) (length (modes_of slh)))
       (zeros2 kzero (cdim slh) (size dip)) (zeros1 kzero (cdim slh))).
Proof.
  rewrite <-length_inputs_of.
  repeat split; simpl; try apply wf2_zeros2. apply length_replicate.
Qed.

(** What a call that returns has gone through: the inputs were placed,
    the first loop filled its arrays, the second kept its shapes. *)
Lemma model_matrices_Some slh dip flag epsilon return_eoms r :
  model_matrices slh dip flag epsilon return_eoms = Some r →
  ∃ ext st pt,
    extend_inputs slh dip = Some ext
    ∧ mode_inv (modes_of slh) (noises_of slh) (inputs_of dip)
        (eoms_of (feed_inputs slh ext) (modes_of slh) (noises_of slh)) epsilon
        (length (modes_of slh)) st
    ∧ port_shapes (modes_of slh) (inputs_of dip) (cdim slh) pt
    ∧ r_A r = st_A st ∧ r_B r = st_B st ∧ r_A_kerr r = st_A_kerr st
    ∧ r_B_input r = st_B_input st ∧ r_u_c r = st_u_c st
    ∧ r_C r = st_C pt ∧ r_D_input r = st_D_input pt ∧ r_U_c r = st_U_c pt.
Proof.
  unfold model_matrices. intros Hrun.
  destruct (extend_inputs slh dip) as [ext|]; simpl in Hrun; [|done].
  destruct (mode_loop_runs slh dip ext epsilon) as (st & Hrun1 & Hinv).
  destruct (for_enumerate (mode_row _ _ _ _ _) _ _ _) as [st'|] eqn:Hrun1';
    simpl in Hrun; [|done].
  assert (st' = st) as -> by congruence.
  destruct (for_enumerate (port_row _ _) _ _ _) as [pt|] eqn:Hrun2;
    simpl in Hrun; [|done].
  injection Hrun as <-. exists ext, st, pt. split; [done|].
  split; [done|]. split; [|by repeat split].
  eapply port_loop_shapes; [exact Hrun2|]. apply port_shapes_init.
Qed.
End model_claims.

Section model_theorems.
Context {K : Type} `{!Scalar K} `{!Engine K}.
Implicit Types (slh : SLH) (dip : gmap Z string) (r : model_matrices_result).

(** The entries of [A]: the coefficient of the bare annihilation term,
    with nothing added on the diagonal. *)
Lemma model_matrices_A slh dip flag epsilon return_eoms r :
  model_matrices slh dip flag epsilon return_eoms = Some r →
  ∃ ext, extend_inputs slh dip = Some ext
    ∧ ∀ jj kk sjj skk,
        modes_of slh !! jj = Some sjj → modes_of slh !! kk = Some skk →
        get2 (r_A r) jj kk =
          Some (dd_get (get_coeffs (eom_of (feed_inputs slh ext) (noises_of slh) sjj)
                          false epsilon) (Destroy skk)).
Proof.
  intros Hrun.
  destruct (model_matrices_Some _ _ _ _ _ _ Hrun)
    as (ext & st & pt & Hext & Hinv & _ & -> & _).
  exists ext. split; [done|]. intros jj kk sjj skk Hjj Hkk.
  destruct Hinv as ([Hsh Hf] & _).
  rewrite (filled_get _ _ _ _ jj kk Hsh Hf); [|by eapply lookup_lt_Some..].
  unfold A_entry, coeffs_at.
  by rewrite (eoms_of_lookup _ _ _ _ _ Hjj), (mode_at_lookup _ _ _ Hkk).
Qed.

Lemma model_matrices_A_kerr_entry slh dip flag epsilon return_eoms r :
  model_matrices slh dip flag epsilon return_eoms = Some r →
  ∃ ext, extend_inputs slh dip = Some ext
    ∧ ∀ jj kk sjj skk,
        modes_of slh !! jj = Some sjj → modes_of slh !! kk = Some skk →
        get2 (r_A_kerr r) jj kk =
          Some (kdiv (dd_get (get_coeffs (eom_of (feed_inputs slh ext) (noises_of slh) sjj)
                                false epsilon) (kerr_term skk sjj))
                  (C.neg C.two_j)).
Proof.
  intros Hrun.
  destruct (model_matrices_Some _ _ _ _ _ _ Hrun)
    as (ext & st & pt & Hext & Hinv & _ & _ & _ & -> & _).
  exists ext. split; [done|]. intros jj kk sjj skk Hjj Hkk.
  destruct Hinv as (_ & [Hsh Hf] & _).
  rewrite (filled_get _ _ _ _ jj kk Hsh Hf); [|by eapply lookup_lt_Some..].
  unfold A_kerr_entry, coeffs_at.
  by rewrite (eoms_of_lookup _ _ _ _ _ Hjj), (mode_at_lookup _ _ _ Hkk),
    (mode_at_lookup _ _ _ Hjj).
Qed.

(** C2, as amended: in a call that returns, for every mode row [jj] and
    column [kk], [A_kerr[jj, kk]] is the sum of the coefficients of those
    addends of the equation of motion of mode [jj] that have the term
    [Create(skk) * Destroy(skk) * Destroy(sjj)] and that the truncation
    test of the call's [epsilon] keeps, divided by [-2j]; when no such
    addend is kept the entry is zero.  With the default [epsilon = 0] every
    addend is kept, and the sum is over all the addends with this term. *)
Theorem model_matrices_A_kerr `{!ScalarLaws K} slh dip flag epsilon return_eoms r :
  model_matrices slh dip flag epsilon return_eoms = Some r →
  ∃ ext, extend_inputs slh dip = Some ext
    ∧ ∀ jj kk sjj skk,
        modes_of slh !! jj = Some sjj → modes_of slh !! kk = Some skk →
        let eom := eom_of (feed_inputs slh ext) (noises_of slh) sjj in
        let kept_kerr :=
          filter (λ a, kept epsilon a = true ∧ term_of a = kerr_term skk sjj) (addends eom) in
        get2 (r_A_kerr r) jj kk =
          Some (kdiv (ksum (coeff_of <$> kept_kerr)) (C.neg C.two_j))
        ∧ (kept_kerr = [] → get2 (r_A_kerr r) jj kk = Some kzero)
        ∧ (epsilon = 0%Qc →
           kept_kerr = filter (λ a, term_of a = kerr_term skk sjj) (addends eom)).
Proof.
  intros Hrun.
  destruct (model_matrices_A_kerr_entry _ _ _ _ _ _ Hrun) as (ext & Hext & Hentry).
  exists ext. split; [done|]. intros jj kk sjj skk Hjj Hkk eom kept_kerr.
  assert (get2 (r_A_kerr r) jj kk =
            Some (kdiv (ksum (coeff_of <$> kept_kerr)) (C.neg C.two_j))) as Hget.
  { rewrite (Hentry jj kk sjj skk Hjj Hkk).
    by rewrite get_coeffs_get, contributions_filter_map. }
  split; [done|]. split.
  - intros Hnone. rewrite Hget, Hnone. simpl. unfold ksum; simpl. by rewrite kdiv_0.
  - intros ->. subst kept_kerr. apply list_filter_iff. intros a. rewrite kept_0. tauto.
Qed.

(** C7: [model_matrices] does not look at [apply_kerr_diagonal_correction]:
    with all other arguments equal, the call with the flag set and the call
    with the flag cleared give the same result, every array and any
    trailing element included.  In particular the diagonal of [A] carries
    no detuning correction: whatever the flag, [A[jj, jj]] is what the
    coefficient map of the equation of motion of mode [jj] reads at the
    bare term [Destroy(sjj)]. *)
Theorem model_matrices_ignores_kerr_correction slh dip epsilon return_eoms :
  model_matrices slh dip true epsilon return_eoms =
    model_matrices slh dip false epsilon return_eoms
  ∧ ∀ flag r,
      model_matrices slh dip flag epsilon return_eoms = Some r →
      ∃ ext, extend_inputs slh dip = Some ext
        ∧ ∀ jj sjj,
            modes_of slh !! jj = Some sjj →
            get2 (r_A r) jj jj =
              Some (dd_get (get_coeffs (eom_of (feed_inputs slh ext) (noises_of slh) sjj)
                              false epsilon) (Destroy sjj)).
Proof.
  split; [reflexivity|]. intros flag r Hrun.
  destruct (model_matrices_A slh dip flag epsilon return_eoms r Hrun)
    as (ext & Hext & Hentries).
  exists ext. split; [done|]. intros jj sjj Hjj. by apply Hentries.
Qed.

(** C8: in a call that returns, [B_input[row, col]] is the value that
    the coefficient map of the equation of motion of mode [row] reads at
    the [col]-th dynamic-input symbol, for every mode row and every input
    column (the guard [inputs == 0] never holds); [B_input] has as many
    columns as there are dynamic inputs, and with no dynamic input it is
    the array [np.zeros((ncav, 0))], in which nothing was written. *)
Theorem model_matrices_B_input slh dip flag epsilon return_eoms r :
  model_matrices slh dip flag epsilon return_eoms = Some r →
  ∃ ext, extend_inputs slh dip = Some ext
    ∧ (∀ row col srow u_col,
         modes_of slh !! row = Some srow → inputs_of dip !! col = Some u_col →
         get2 (r_B_input r) row col =
           Some (dd_get (get_coeffs (eom_of (feed_inputs slh ext) (noises_of slh) srow)
                           false epsilon) u_col))
    ∧ ncols (r_B_input r) = size dip
    ∧ (dip = ∅ → r_B_input r = zeros2 kzero (length (modes_of slh)) 0).
Proof.
  intros Hrun.
  destruct (model_matrices_Some _ _ _ _ _ _ Hrun)
    as (ext & st & pt & Hext & Hinv & _ & _ & _ & _ & -> & _).
  exists ext. split; [done|].
  destruct Hinv as (_ & _ & _ & [Hsh Hf] & _).
  split; [|split].
  - intros row col srow u_col Hrow Hcol.
    rewrite (filled_get _ _ _ _ row col Hsh Hf); [|by eapply lookup_lt_Some..].
    unfold B_input_entry, coeffs_at.
    by rewrite (eoms_of_lookup _ _ _ _ _ Hrow), Hcol.
  - destruct Hsh as (_ & -> & _). apply length_inputs_of.
  - intros ->. destruct Hsh as (Hn & Hm & Hw).
    rewrite length_inputs_of, map_size_empty in Hm.
    rewrite (wf2_no_columns kzero _ Hw Hm). by rewrite Hn.
Qed.

(** C9: the arrays that a call returns have the shapes
    [A]: ncav x ncav, [B]: ncav x cdim, [C]: cdim x ncav,
    [A_kerr]: ncav x ncav, [B_input]: ncav x ninputs,
    [D_input]: cdim x ninputs, [u_c]: ncav, [U_c]: cdim,
    where ncav is the number of modes, cdim the number of ports and
    ninputs the size of [dynamic_input_ports]; each two-dimensional
    array has exactly the cells of its shape. *)
Theorem model_matrices_shapes slh dip flag epsilon return_eoms r :
  model_matrices slh dip flag epsilon return_eoms = Some r →
  let ncav := length (modes_of slh) in
  let ninputs := size dip in
  shaped (r_A r) ncav ncav
  ∧ shaped (r_B r) ncav (cdim slh)
  ∧ shaped (r_C r) (cdim slh) ncav
  ∧ shaped (r_A_kerr r) ncav ncav
  ∧ shaped (r_B_input r) ncav ninputs
  ∧ shaped (r_D_input r) (cdim slh) ninputs
  ∧ length (r_u_c r) = ncav
  ∧ length (r_U_c r) = cdim slh.
Proof.
  intros Hrun ncav ninputs.
  destruct (model_matrices_Some _ _ _ _ _ _ Hrun)
    as (ext & st & pt & Hext & Hinv & Hpt & -> & -> & -> & -> & -> & -> & -> & ->).
  destruct Hinv as ([HA _] & [HK _] & [HB _] & [HI _] & [Hu _]).
  destruct Hpt as (HC & HD & HU).
  rewrite length_noises_of in HB. rewrite length_inputs_of in HI, HD.
  by repeat (split; [done|]).
Qed.

(** C10: [epsilon] does not reach the output couplings.  For every
    [epsilon], the call raises exactly when the call with [epsilon = 0]
    does, and when they return, [C], [U_c] and [D_input] are the same. *)
Theorem model_matrices_outputs_ignore_epsilon slh dip flag epsilon return_eoms :
  (λ r, (r_C r, r_U_c r, r_D_input r)) <$> model_matrices slh dip flag epsilon return_eoms
  = (λ r, (r_C r, r_U_c r, r_D_input r)) <$> model_matrices slh dip flag 0%Qc return_eoms.
Proof.
  unfold model_matrices.
  destruct (extend_inputs slh dip) as [ext|]; simpl; [|done].
  destruct (mode_loop_runs slh dip ext epsilon) as (st & -> & _).
  destruct (mode_loop_runs slh dip ext 0%Qc) as (st0 & -> & _). simpl.
  by destruct (for_enumerate (port_row _ _) _ _ _).
Qed.

(** [model_matrices] returns when every key of [dynamic_input_ports]
    indexes a port (from the front or, negative, from the end) and the
    coupling vector of the driven model has one row per port. *)
Lemma extend_inputs_returns slh dip :
  (∀ n, is_Some (dip !! n) → (- Z.of_nat (cdim slh) ≤ n < Z.of_nat (cdim slh))%Z) →
  ∃ ext, extend_inputs (K:=K) slh dip = Some ext ∧ length ext = cdim slh.
Proof.
  intros Hkeys. unfold extend_inputs.
  assert (∀ p, p ∈ zip (inputs_of (K:=K) dip) (sorted_keys dip) →
               (- Z.of_nat (cdim slh) ≤ p.2 < Z.of_nat (cdim slh))%Z) as Hzip.
  { intros [ii n] Hin. apply elem_of_zip_r in Hin. simpl. apply Hkeys.
    unfold sorted_keys in Hin. rewrite merge_sort_Permutation in Hin.
    apply list_elem_of_fmap in Hin as ([n' v] & -> & Hin).
    apply elem_of_map_to_list in Hin. by exists v. }
  revert Hzip. generalize (zip (inputs_of (K:=K) dip) (sorted_keys dip)).
  assert (length (replicate (cdim slh) (@NoDrive K)) = cdim slh) as Hlen
    by apply length_replicate.
  revert Hlen. generalize (replicate (cdim slh) (@NoDrive K)).
  intros l0 Hlen ps. revert l0 Hlen.
  induction ps as [|[ii n] ps IH]; intros l0 Hlen Hzip; simpl.
  - by exists l0.
  - pose proof (Hzip (ii, n) (list_elem_of_here _ _)) as Hn. simpl in Hn.
    unfold py_list_setitem. rewrite Hlen.
    destruct (decide (0 ≤ n)%Z).
    + rewrite bool_decide_eq_true_2 by lia. simpl.
      apply IH; [by rewrite length_insert|]. intros p Hp. apply Hzip. by right.
    + rewrite bool_decide_eq_false_2 by lia.
      rewrite bool_decide_eq_true_2 by lia. simpl.
      apply IH; [by rewrite length_insert|]. intros p Hp. apply Hzip. by right.
Qed.

Lemma model_matrices_returns slh dip flag epsilon return_eoms :
  (∀ n, is_Some (dip !! n) → (- Z.of_nat (cdim slh) ≤ n < Z.of_nat (cdim slh))%Z) →
  (∀ ext, length (slh_L_column (feed_inputs slh ext)) = cdim slh) →
  is_Some (model_matrices slh dip flag epsilon return_eoms).
Proof.
  intros Hkeys HL. unfold model_matrices.
  destruct (extend_inputs_returns slh dip Hkeys) as (ext & -> & _). simpl.
  destruct (mode_loop_runs slh dip ext epsilon) as (st & -> & _). simpl.
  destruct (port_loop_total (modes_of slh) (inputs_of dip)
              (slh_L_column (feed_inputs slh ext)) (cdim slh)
              (mk_port_arrays (zeros2 kzero (cdim slh) (length (modes_of slh)))
                 (zeros2 kzero (cdim slh) (size dip)) (zeros1 kzero (cdim slh))))
    as (pt & -> & _); [apply HL| |by eexists].
  destruct (port_shapes_init slh dip) as (HC & HD & HU).
  split; [split; [exact HC|apply filled_start]|].
  split; [split; [exact HD|apply filled_start]|].
  split; [exact HU|intros; lia].
Qed.
End model_theorems.

(** ** [prepare_sde] *)

Section sde_claims.
Implicit Types (m : ndarray2 Cx) (v w : list Cx).

Lemma csum_ext f g n : (∀ k, k < n → f k = g k) → csum f n = csum g n.
Proof.
  induction n as [|n IH]; intros Hfg; simpl; [done|].
  rewrite IH by (intros k Hk; apply Hfg; lia). by rewrite Hfg by lia.
Qed.

Lemma sum_csum v : np.sum v = csum (component v) (length v).
Proof.
  induction v as [|x v IH] using rev_ind; [done|].
  unfold np.sum in *. rewrite foldl_snoc, IH, length_app, Nat.add_1_r. simpl.
  f_equal.
  - apply csum_ext. intros k Hk. unfold component. by rewrite lookup_app_l.
  - unfold component. by rewrite list_lookup_middle.
Qed.

Lemma elementwise_same_length f v w :
  length v = length w →
  np.elementwise f v w = Some (zip_with f v w)
  ∧ length (zip_with f v w) = length v
  ∧ ∀ i, i < length v →
      zip_with f v w !! i = Some (f (component v i) (component w i)).
Proof.
  intros Hlen. unfold np.elementwise. rewrite decide_True by done.
  split; [done|]. split; [rewrite length_zip_with; lia|].
  intros i Hi. rewrite lookup_zip_with. unfold component.
  destruct (lookup_lt_is_Some_2 v i Hi) as [x ->].
  destruct (lookup_lt_is_Some_2 w i) as [y ->]; [lia|]. done.
Qed.

Lemma dot_entries m v n k :
  shaped m n k → length v = k →
  ∃ w, np.dot m v = Some w ∧ length w = n
       ∧ ∀ i, i < n → w !! i = Some (matvec m (component v) i).
Proof.
  intros (Hn & Hk & Hw) Hv. unfold np.dot. rewrite decide_True by congruence.
  eexists. split; [done|]. split; [by rewrite length_fmap, length_seq|].
  intros i Hi. rewrite list_lookup_fmap, lookup_seq_lt by lia. simpl. f_equal.
  rewrite sum_csum, length_zip_with, length_row by (done || lia).
  unfold matvec. rewrite Hk, Hv, Nat.min_id.
  apply csum_ext. intros j Hj. unfold component, entry.
  rewrite lookup_zip_with, lookup_row by (done || lia).
  destruct (get2 m i j) as [x|] eqn:Hx; simpl.
  - by destruct (lookup_lt_is_Some_2 v j ltac:(lia)) as [y ->].
  - exfalso. unfold get2 in Hx. rewrite bool_decide_eq_true_2 in Hx by lia.
    apply lookup_ge_None in Hx. rewrite Hw in Hx.
    pose proof (cell_index_lt (nrows m) (ncols m) i j). lia.
Qed.

Lemma component_fmap (f : Cx → Cx) v i :
  i < length v → component (f <$> v) i = f (component v i).
Proof.
  intros Hi. unfold component. rewrite list_lookup_fmap.
  by destruct (lookup_lt_is_Some_2 v i Hi) as [x ->].
Qed.

Lemma component_lookup v i x : v !! i = Some x → component v i = x.
Proof. unfold component. by intros ->. Qed.

(** C1: for numeric model matrices of the shapes of [ncav] modes and
    [ninputs] inputs, a state vector [a] of length [ncav] and an input
    function giving [ninputs] values at time [t], the drift returns a
    vector of length [ncav] whose component [i] is
    [(A a)_i - (2j (A_kerr n)_i) a_i + u_c_i + (B_input u)_i], with
    [n_k = conj(a_k) a_k] and [u = input_fn(t)]: the products with [A],
    [A_kerr] and [B_input] are matrix-vector products (sums over the
    columns), the product with [a_i] is that of the same index only. *)
Theorem prepare_sde_drift (M : numeric_model_matrices) (input_fn : Qc → list Cx)
    (a : list Cx) (t : Qc) (ncav ninputs : nat) :
  shaped (n_A M) ncav ncav →
  shaped (n_A_kerr M) ncav ncav →
  shaped (n_B_input M) ncav ninputs →
  length (ravel (n_u_c M)) = ncav →
  length a = ncav →
  length (input_fn t) = ninputs →
  ∃ da, (SDE.prepare_sde M input_fn).1 a t = Some da
    ∧ length da = ncav
    ∧ ∀ i, i < ncav →
        da !! i = Some
          (C.add
             (C.add
                (C.sub (matvec (n_A M) (component a) i)
                   (C.mul
                      (C.mul C.two_j
                         (matvec (n_A_kerr M)
                            (λ k, C.mul (C.conjugate (component a k)) (component a k)) i))
                      (component a i)))
                (component (ravel (n_u_c M)) i))
             (matvec (n_B_input M) (component (input_fn t)) i)).
Proof.
  intros HA HK HB Hu Ha Hin. simpl. unfold SDE.f.
  destruct (dot_entries (n_A M) a ncav ncav HA Ha) as (Aa & -> & HlAa & HAa). simpl.
  destruct (elementwise_same_length C.mul (C.conjugate <$> a) a) as (-> & Hln & Hn);
    [by rewrite length_fmap|]. simpl.
  rewrite length_fmap in Hln, Hn.
  destruct (dot_entries (n_A_kerr M) (zip_with C.mul (C.conjugate <$> a) a) ncav ncav HK)
    as (kn & -> & Hlkn & Hkn); [lia|]. simpl.
  assert (length (np.scale C.two_j kn) = ncav) as Hls
    by (unfold np.scale; rewrite length_fmap; lia).
  destruct (elementwise_same_length C.mul (np.scale C.two_j kn) a) as (-> & Hlk & Hk);
    [lia|]. simpl.
  set (kerr := zip_with C.mul (np.scale C.two_j kn) a) in *.
  destruct (elementwise_same_length C.sub Aa kerr) as (-> & Hld & Hd); [lia|]. simpl.
  set (d1 := zip_with C.sub Aa kerr) in *.
  destruct (elementwise_same_length C.add d1 (ravel (n_u_c M))) as (-> & Hld2 & Hd2);
    [lia|]. simpl.
  set (d2 := zip_with C.add d1 (ravel (n_u_c M))) in *.
  destruct (dot_entries (n_B_input M) (input_fn t) ncav ninputs HB Hin)
    as (Bu & -> & HlBu & HBu). simpl.
  destruct (elementwise_same_length C.add d2 Bu) as (-> & Hl & Hfin); [lia|].
  eexists. split; [done|]. split; [lia|].
  intros i Hi. rewrite Hfin by lia. f_equal.
  rewrite (component_lookup _ _ _ (HBu i Hi)). f_equal.
  rewrite (component_lookup _ _ _ (Hd2 i ltac:(lia))). f_equal.
  rewrite (component_lookup _ _ _ (Hd i ltac:(lia))).
  rewrite (component_lookup _ _ _ (HAa i Hi)). f_equal.
  rewrite (component_lookup _ _ _ (Hk i ltac:(lia))). f_equal.
  unfold np.scale. rewrite component_fmap by lia.
  rewrite (component_lookup _ _ _ (Hkn i Hi)). f_equal.
  unfold matvec. apply csum_ext. intros k Hk'. f_equal.
  destruct HK as (_ & HKc & _).
  rewrite (component_lookup _ _ _ (Hn k ltac:(lia))).
  by rewrite component_fmap by lia.
Qed.

(** C6: the diffusion returns [B / 2] (the array of the shape of [B]
    whose cells are those of [B] divided by 2) for every state and time,
    hence the same matrix at any two calls. *)
Theorem prepare_sde_diffusion (M : numeric_model_matrices) (input_fn : Qc → list Cx)
    (a a' : list Cx) (t t' : Qc) :
  let g := (SDE.prepare_sde M input_fn).2 in
  g a t = np.div_real (n_B M) (Q2Qc 2)
  ∧ g a t = g a' t'
  ∧ shape2 (g a t) = shape2 (n_B M)
  ∧ ∀ i j, get2 (g a t) i j = (λ z, C.div_real z (Q2Qc 2)) <$> get2 (n_B M) i j.
Proof.
  simpl. unfold SDE.g. repeat split.
  intros i j. unfold get2, np.div_real; simpl.
  case_bool_decide; [|done]. by rewrite list_lookup_fmap.
Qed.
End sde_claims.

(** ** The Kerr cavity of the stand-in engine *)

Module ModelExamples.
Import Mock MockLaws Inputs.

Lemma kerr_cavity_returns :
  is_Some (model_matrices kerr_cavity one_input true eps0 false).
Proof.
  destruct (model_matrices kerr_cavity one_input true eps0 false) eqn:Hrun; [done|].
  vm_compute in Hrun. discriminate Hrun.
Defined.

(** The call on the Kerr cavity returns arrays of the shapes of one mode,
    one port and one dynamic input. *)
Lemma model_matrices_shapes_witness :
  ∃ r, model_matrices kerr_cavity one_input true eps0 false = Some r
    ∧ shaped (r_A r) 1 1 ∧ shaped (r_B r) 1 1 ∧ shaped (r_C r) 1 1
    ∧ shaped (r_A_kerr r) 1 1 ∧ shaped (r_B_input r) 1 1
    ∧ shaped (r_D_input r) 1 1 ∧ length (r_u_c r) = 1 ∧ length (r_U_c r) = 1.
Proof.
  destruct kerr_cavity_returns as [r Hrun]. exists r. split; [exact Hrun|].
  exact (model_matrices_shapes kerr_cavity one_input true eps0 false r Hrun).
Defined.

(** In the Kerr cavity, whose equation of motion has the term
    [-4i a^* a a], the Kerr entry is [-4i / -2i = 2]. *)
Lemma model_matrices_A_kerr_witness :
  ∃ r, model_matrices kerr_cavity one_input true eps0 false = Some r
    ∧ ScalarLaws scalar
    ∧ get2 (r_A_kerr r) 0 0 = Some (number 2 0).
Proof.
  destruct kerr_cavity_returns as [r Hrun]. exists r. split; [exact Hrun|].
  split; [apply _|].
  destruct (model_matrices_A_kerr kerr_cavity one_input true eps0 false r Hrun)
    as (ext & Hext & Hentry).
  destruct (Hentry 0 0 cav cav eq_refl eq_refl) as [-> _].
  vm_compute in Hext. injection Hext as <-.
  apply (f_equal Some). apply scalar_eq; apply Cx_eq; apply Qc_is_canon; reflexivity.
Defined.

(** The claim as it was stated fails when [epsilon] is larger than the
    Kerr coefficient.  With [epsilon = 5] the equation of motion of the Kerr
    cavity still has the one addend [-4i a^* a a] with the Kerr term, whose
    coefficient divided by [-2i] is 2, yet the entry of [A_kerr] is zero:
    [get_coeffs] dropped the addend, of magnitude [4 < 5]. *)
Lemma model_matrices_A_kerr_counterexample :
  ∃ r ext,
    model_matrices kerr_cavity one_input true eps_large false = Some r
    ∧ extend_inputs kerr_cavity one_input = Some ext
    ∧ filter (λ a, term_of a = kerr_term cav cav)
        (addends (eom_of (feed_inputs kerr_cavity ext) (noises_of kerr_cavity) cav))
      = [ScalarTimesOperator (number 0 (-4)) (kerr_term cav cav)]
    ∧ kdiv (number 0 (-4)) (C.neg C.two_j) = number 2 0
    ∧ get2 (r_A_kerr r) 0 0 = Some kzero
    ∧ get2 (r_A_kerr r) 0 0 ≠ Some (number 2 0).
Proof.
  destruct (model_matrices kerr_cavity one_input true eps_large false) as [r|] eqn:Hrun;
    [|vm_compute in Hrun; discriminate Hrun].
  destruct (model_matrices_A_kerr_entry kerr_cavity one_input true eps_large false r Hrun)
    as (ext & Hext & Hentry).
  exists r, ext. split; [reflexivity|]. split; [exact Hext|].
  assert (get2 (r_A_kerr r) 0 0 = Some kzero) as Hzero.
  { rewrite (Hentry 0 0 cav cav eq_refl eq_refl).
    vm_compute in Hext. injection Hext as <-.
    apply (f_equal Some). apply scalar_eq; apply Cx_eq; apply Qc_is_canon; reflexivity. }
  vm_compute in Hext. injection Hext as <-.
  split; [vm_compute; reflexivity|]. split.
  { apply scalar_eq; apply Cx_eq; apply Qc_is_canon; reflexivity. }
  split; [exact Hzero|].
  rewrite Hzero. intros Heq. apply (f_equal (default kzero)) in Heq. revert Heq.
  apply GetCoeffsExamples.scalar_neq. vm_compute. discriminate.
Qed.

(** On the Kerr cavity both values of the flag give the same matrices,
    and [A] holds the bare coefficient [-1/2 - 3i] of [a]. *)
Lemma model_matrices_ignores_kerr_correction_witness :
  ∃ r, model_matrices kerr_cavity one_input true eps0 false = Some r
    ∧ model_matrices kerr_cavity one_input false eps0 false = Some r
    ∧ get2 (r_A r) 0 0 = Some (mk_scalar (mkCx (Q2Qc (-1 # 2)) (Q2Qc (-3 # 1))) C.zero).
Proof.
  destruct kerr_cavity_returns as [r Hrun]. exists r. split; [exact Hrun|].
  destruct (model_matrices_ignores_kerr_correction kerr_cavity one_input eps0 false)
    as [Hsame Hdiag].
  split; [by rewrite <-Hsame|].
  destruct (Hdiag true r Hrun) as (ext & Hext & Hentry).
  rewrite (Hentry 0 cav eq_refl).
  vm_compute in Hext. injection Hext as <-.
  apply (f_equal Some). apply scalar_eq; apply Cx_eq; apply Qc_is_canon; reflexivity.
Defined.

(** In the Kerr cavity, driven as [- u_in], the input entry is [-1]. *)
Lemma model_matrices_B_input_witness :
  ∃ r, model_matrices kerr_cavity one_input true eps0 false = Some r
    ∧ get2 (r_B_input r) 0 0 = Some (number (-1) 0)
    ∧ ncols (r_B_input r) = 1.
Proof.
  destruct kerr_cavity_returns as [r Hrun]. exists r. split; [exact Hrun|].
  destruct (model_matrices_B_input kerr_cavity one_input true eps0 false r Hrun)
    as (ext & Hext & Hentry & Hcols & _).
  split; [|exact Hcols].
  rewrite (Hentry 0 0 cav (input_symbol "in") eq_refl eq_refl).
  vm_compute in Hext. injection Hext as <-.
  apply (f_equal Some). apply scalar_eq; apply Cx_eq; apply Qc_is_canon; reflexivity.
Defined.

End ModelExamples.

(** ** A drift on two modes *)

Module SDEExamples.
Import Inputs.

Lemma prepare_sde_drift_witness :
  shaped (n_A two_modes) 2 2
  ∧ shaped (n_A_kerr two_modes) 2 2
  ∧ shaped (n_B_input two_modes) 2 0
  ∧ ∃ da, (SDE.prepare_sde two_modes no_input).1 [re 1; re 2] (Q2Qc 0) = Some da
          ∧ length da = 2.
Proof.
  assert (shaped (n_A two_modes) 2 2) as HA by (by repeat split).
  assert (shaped (n_A_kerr two_modes) 2 2) as HK by (by repeat split).
  assert (shaped (n_B_input two_modes) 2 0) as HB by (by repeat split).
  do 3 (split; [done|]).
  destruct (prepare_sde_drift two_modes no_input [re 1; re 2] (Q2Qc 0) 2 0
              HA HK HB eq_refl eq_refl eq_refl) as (da & Hrun & Hlen & _).
  exists da. by split.
Defined.

(** With [a = (1, 2)] the photon numbers are [(1, 4)], the Kerr shifts
    [A_kerr n = (5, 0)], and the drift [-2j (5, 0) ⊙ (1, 2) = (-10j, 0)]:
    the last product multiplies each shift by its own mode only. *)
Example drift_two_modes :
  SDE.f two_modes no_input [re 1; re 2] (Q2Qc 0) = Some [im (-10); re 0].
Proof. apply (bool_decide_eq_true_1 _). vm_compute. reflexivity. Qed.
End SDEExamples.

(** * Further properties *)

(** ** The keys of a coefficient map *)

Section get_coeffs_keys.
Context {K : Type} `{!Scalar K} `{!Engine K}.
Implicit Types (d : defaultdict K) (e a t k : operator K) (c v : K) (l : list (operator K)).

Lemma dd_lookup_is_Some d k : is_Some (dd_lookup d k) ↔ k ∈ dd_keys d.
Proof.
  unfold dd_keys. induction d as [|[k0 v0] d IH]; simpl.
  - split; [by intros [? ?]|by intros ?%elem_of_nil].
  - rewrite elem_of_cons. destruct (decide (k0 = k)) as [->|Hne].
    + split; [by left|by eexists].
    + rewrite IH. split; [by right|]. by intros [?|?].
Qed.

Lemma dd_keys_setitem_old d k v : k ∈ dd_keys d → dd_keys (dd_setitem d k v) = dd_keys d.
Proof.
  unfold dd_keys. induction d as [|[k0 v0] d IH]; simpl.
  - by intros ?%elem_of_nil.
  - intros Hin. destruct (decide (k0 = k)) as [->|Hne]; simpl; [done|].
    f_equal. apply IH. apply elem_of_cons in Hin as [?|?]; [congruence|done].
Qed.

Lemma dd_keys_setitem_new d k v :
  k ∉ dd_keys d → dd_keys (dd_setitem d k v) = dd_keys d ++ [k].
Proof.
  unfold dd_keys. induction d as [|[k0 v0] d IH]; simpl; [done|].
  intros Hnin. apply not_elem_of_cons in Hnin as [Hne Hnin].
  rewrite decide_False by congruence. simpl. f_equal. by apply IH.
Qed.

Lemma dd_keys_iadd_old d k c : k ∈ dd_keys d → dd_keys (dd_iadd d k c) = dd_keys d.
Proof.
  intros Hin. unfold dd_iadd, dd_getitem.
  destruct (dd_lookup d k) as [v|] eqn:Hl; simpl.
  - by apply dd_keys_setitem_old.
  - apply dd_lookup_is_Some in Hin. rewrite Hl in Hin. by destruct Hin.
Qed.

Lemma dd_keys_iadd_new d k c : k ∉ dd_keys d → dd_keys (dd_iadd d k c) = dd_keys d ++ [k].
Proof.
  intros Hnin. unfold dd_iadd, dd_getitem.
  destruct (dd_lookup d k) as [v|] eqn:Hl; simpl.
  - exfalso. apply Hnin, dd_lookup_is_Some. by rewrite Hl.
  - rewrite dd_keys_setitem_old; [by apply dd_keys_setitem_new|].
    rewrite dd_keys_setitem_new by done. apply elem_of_app. right. by left.
Qed.

Lemma NoDup_keys_iadd d k c : NoDup (dd_keys d) → NoDup (dd_keys (dd_iadd d k c)).
Proof.
  intros Hnd. destruct (decide (k ∈ dd_keys d)) as [Hin|Hnin].
  - by rewrite dd_keys_iadd_old.
  - rewrite dd_keys_iadd_new by done.
    apply list.NoDup_app. split; [done|]. split; [|apply NoDup_singleton].
    intros x Hx ->%list_elem_of_singleton. done.
Qed.

Lemma NoDup_keys_foldl epsilon l d :
  NoDup (dd_keys d) → NoDup (dd_keys (foldl (get_coeffs_step epsilon) d l)).
Proof.
  revert d. induction l as [|a l IH]; intros d Hnd; simpl; [done|].
  apply IH. destruct (kept epsilon a) eqn:Hk.
  - rewrite (get_coeffs_step_kept _ _ _ Hk). by apply NoDup_keys_iadd.
  - by rewrite (get_coeffs_step_dropped _ _ _ Hk).
Qed.

(** X1: the keys of the map of [get_coeffs] are pairwise distinct, and a
    term is a key exactly when it is the term of an addend that the
    truncation test keeps; exactly the keys have an entry. *)
Theorem get_coeffs_keys e (expand_first : bool) (epsilon : Qc) :
  let d := get_coeffs e expand_first epsilon in
  let e' := if expand_first then expand e else e in
  NoDup (dd_keys d)
  ∧ (∀ t, t ∈ dd_keys d ↔ ∃ a, a ∈ addends e' ∧ kept epsilon a = true ∧ term_of a = t)
  ∧ (∀ t, is_Some (dd_lookup d t) ↔ t ∈ dd_keys d).
Proof.
  intros d e'.
  assert (d = get_coeffs e' false epsilon) as Hd by (by destruct expand_first).
  split; [|split].
  - unfold d, get_coeffs. apply NoDup_keys_foldl. apply NoDup_nil_2.
  - intros t. rewrite <-dd_lookup_is_Some, Hd, get_coeffs_lookup. split.
    + intros Hsome.
      destruct (contributions epsilon t (addends e')) as [|c cs] eqn:Hc;
        [by destruct Hsome|].
      assert (c ∈ contributions epsilon t (addends e')) as Hin
        by (rewrite Hc; by left).
      apply elem_of_contributions in Hin as (a & Ha & Hk & Hct).
      exists a. split; [done|]. split; [done|]. unfold term_of. by rewrite Hct.
    + intros (a & Ha & Hk & Ht).
      assert (coeff_of a ∈ contributions epsilon t (addends e')) as Hin.
      { apply elem_of_contributions. exists a. split; [done|]. split; [done|].
        unfold coeff_of, term_of in *. destruct (_coeff_term a); simpl in *; congruence. }
      destruct (contributions epsilon t (addends e')); [by apply elem_of_nil in Hin|done].
  - intros t. apply dd_lookup_is_Some.
Qed.
End get_coeffs_keys.

(** ** More on [get_coeffs] *)

Section get_coeffs_more.
Context {K : Type} `{!Scalar K} `{!Engine K}.
Implicit Types (d : defaultdict K) (e a t k : operator K) (c v : K) (l : list (operator K)).

Lemma truncated_nonpos c (epsilon : Qc) : (epsilon ≤ 0)%Qc → truncated c epsilon = false.
Proof.
  intros Hle. unfold truncated, C.abs_lt. destruct (to_complex c); [|done].
  rewrite bool_decide_eq_false_2; [done|]. by apply Qcle_not_lt.
Qed.

Lemma abs_lt_mono z (eps1 eps2 : Qc) :
  (eps1 ≤ eps2)%Qc → C.abs_lt z eps1 = true → C.abs_lt z eps2 = true.
Proof.
  unfold C.abs_lt. rewrite !andb_true_iff, !bool_decide_eq_true.
  intros Hle [Hpos Hlt]. split.
  - by eapply Qclt_le_trans.
  - eapply Qclt_le_trans; [exact Hlt|].
    eapply Qcle_trans.
    + apply Qcmult_le_mono_nonneg_l; [by apply Qclt_le_weak|exact Hle].
    + apply Qcmult_le_mono_nonneg_r; [|exact Hle].
      apply Qclt_le_weak. by eapply Qclt_le_trans.
Qed.

Lemma kept_mono (eps1 eps2 : Qc) a :
  (eps1 ≤ eps2)%Qc → kept eps2 a = true → kept eps1 a = true.
Proof.
  intros Hle. unfold kept, truncated. destruct (to_complex _) as [z|]; [|done].
  destruct (C.abs_lt z eps1) eqn:H1; [|done].
  by rewrite (abs_lt_mono z eps1 eps2 Hle H1).
Qed.

Lemma foldl_step_ext (eps1 eps2 : Qc) l d :
  (∀ a, a ∈ l → kept eps1 a = kept eps2 a) →
  foldl (get_coeffs_step eps1) d l = foldl (get_coeffs_step eps2) d l.
Proof.
  revert d. induction l as [|a l IH]; intros d Hext; simpl; [done|].
  assert (get_coeffs_step eps1 d a = get_coeffs_step eps2 d a) as ->.
  { pose proof (Hext a (list_elem_of_here _ _)) as Hk.
    destruct (kept eps2 a) eqn:H2.
    - by rewrite (get_coeffs_step_kept _ _ _ Hk), (get_coeffs_step_kept _ _ _ H2).
    - by rewrite (get_coeffs_step_dropped _ _ _ Hk), (get_coeffs_step_dropped _ _ _ H2). }
  apply IH. intros b Hb. apply Hext. by right.
Qed.

Lemma contributions_distinct epsilon a l :
  NoDup (term_of <$> l) → a ∈ l →
  contributions epsilon (term_of a) l = if kept epsilon a then [coeff_of a] else [].
Proof.
  induction l as [|b l IH]; [by intros _ ?%elem_of_nil|].
  rewrite fmap_cons. intros [Hb Hnd]%list.NoDup_cons Ha.
  rewrite contributions_cons. fold (term_of b) (coeff_of b).
  apply elem_of_cons in Ha as [->|Ha].
  - rewrite bool_decide_eq_true_2 by done. rewrite andb_true_r.
    rewrite contributions_nil.
    + by destruct (kept epsilon b).
    + intros x Hx Ht. exfalso. apply Hb. rewrite <-Ht. by apply list_elem_of_fmap_2.
  - rewrite bool_decide_eq_false_2.
    + rewrite andb_false_r. simpl. by apply IH.
    + intros Ht. apply Hb. rewrite Ht. by apply list_elem_of_fmap_2.
Qed.

(** X3: a negative [epsilon] truncates nothing: the result is that of the
    default [epsilon = 0]. *)
Theorem get_coeffs_nonpositive_epsilon e (expand_first : bool) (epsilon : Qc) :
  (epsilon ≤ 0)%Qc →
  get_coeffs e expand_first epsilon = get_coeffs e expand_first 0%Qc.
Proof.
  intros Hle. unfold get_coeffs. apply foldl_step_ext. intros a _.
  unfold kept. by rewrite !truncated_nonpos.
Qed.

(** X5: raising [epsilon] only removes keys: an addend kept at the larger
    [epsilon] is kept at the smaller, and every key of the map built with
    the larger [epsilon] is a key of the map built with the smaller. *)
Theorem get_coeffs_epsilon_monotone e (expand_first : bool) (eps1 eps2 : Qc) :
  (eps1 ≤ eps2)%Qc →
  (∀ a, kept eps2 a = true → kept eps1 a = true)
  ∧ ∀ t, t ∈ dd_keys (get_coeffs e expand_first eps2) →
         t ∈ dd_keys (get_coeffs e expand_first eps1).
Proof.
  intros Hle. split; [intros a; by apply kept_mono|].
  intros t. rewrite <-!dd_lookup_is_Some.
  assert (∀ e', is_Some (dd_lookup (get_coeffs e' false eps2) t) →
                is_Some (dd_lookup (get_coeffs e' false eps1) t)) as Hmono.
  { intros e'. rewrite !get_coeffs_lookup. intros Hsome.
    destruct (contributions eps2 t (addends e')) as [|c cs] eqn:Hc; [by destruct Hsome|].
    assert (c ∈ contributions eps2 t (addends e')) as Hin by (rewrite Hc; by left).
    apply elem_of_contributions in Hin as (a & Ha & Hk & Hct).
    assert (c ∈ contributions eps1 t (addends e')) as Hin1.
    { apply elem_of_contributions. exists a. split; [done|]. split; [|done].
      by apply (kept_mono eps1 eps2). }
    destruct (contributions eps1 t (addends e')); [by apply elem_of_nil in Hin1|done]. }
  destruct expand_first; [rewrite !get_coeffs_expand|]; apply Hmono.
Qed.

Context `{!ScalarLaws K}.

(** X2: on a sum whose addends have pairwise distinct terms, the term of
    each addend reads exactly the coefficient of that addend when the
    addend passes the truncation test and is absent when it does not; a
    term of no addend is absent and reads zero. *)
Theorem get_coeffs_distinct_terms e (epsilon : Qc) :
  NoDup (term_of <$> addends e) →
  (∀ a, a ∈ addends e →
     dd_lookup (get_coeffs e false epsilon) (term_of a) =
       if kept epsilon a then Some (coeff_of a) else None)
  ∧ (∀ t, t ∉ term_of <$> addends e →
       dd_lookup (get_coeffs e false epsilon) t = None
       ∧ dd_get (get_coeffs e false epsilon) t = kzero).
Proof.
  intros Hnd. split.
  - intros a Ha. rewrite get_coeffs_lookup, (contributions_distinct _ _ _ Hnd Ha).
    destruct (kept epsilon a); [|done]. by rewrite ksum_singleton.
  - intros t Ht.
    assert (contributions epsilon t (addends e) = []) as Hnil.
    { apply contributions_nil. intros a Ha Hta. exfalso. apply Ht.
      rewrite <-Hta. by apply list_elem_of_fmap_2. }
    by rewrite get_coeffs_lookup, get_coeffs_get, Hnil.
Qed.

(** X4: the map does not depend on the order of the addends: two
    expressions with the same addends in different orders have the same
    keys, and every key reads the same coefficient in both (on exact
    scalars), whatever [epsilon] is. *)
Theorem get_coeffs_order_independent e1 e2 (epsilon : Qc) :
  addends e1 ≡ₚ addends e2 →
  ∀ t, dd_get (get_coeffs e1 false epsilon) t = dd_get (get_coeffs e2 false epsilon) t
       ∧ (t ∈ dd_keys (get_coeffs e1 false epsilon)
          ↔ t ∈ dd_keys (get_coeffs e2 false epsilon)).
Proof.
  intros Hperm t.
  assert (contributions epsilon t (addends e1) ≡ₚ contributions epsilon t (addends e2))
    as Hc by (unfold contributions; by rewrite Hperm).
  split.
  - rewrite !get_coeffs_get. by apply ksum_Permutation.
  - rewrite <-!dd_lookup_is_Some, !get_coeffs_lookup.
    destruct (contributions epsilon t (addends e1)) as [|c1 cs1],
             (contributions epsilon t (addends e2)) as [|c2 cs2]; try done.
    + by apply Permutation_nil_cons in Hc.
    + symmetry in Hc. by apply Permutation_nil_cons in Hc.
Qed.
End get_coeffs_more.

(** ** The second loop of [model_matrices], when it ends *)

Section fill_partial.
Context {K : Type} `{!Scalar K}.

Lemma set2_Some_inv (a a' : ndarray2 K) i j v :
  set2 a i j v = Some a' → i < nrows a ∧ j < ncols a.
Proof. unfold set2. case_bool_decide; [done|discriminate]. Qed.

Lemma set1_Some_inv (u u' : list K) i v : set1 u i v = Some u' → i < length u.
Proof. unfold set1. case_bool_decide; [done|discriminate]. Qed.

(** A row-filling loop that ends has filled its row. *)
Lemma fill_row_partial {T : Type} (key : T → operator K) (post : K → K)
    (f : nat → nat → K) jj (xs : list T) d0 a0 d a dref n :
  for_enumerate (fill_body key post jj) 0 xs (d0, a0) = Some (d, a) →
  shaped a0 n (length xs) → same_reads d0 dref → filled a0 f jj 0 →
  (∀ kk x, xs !! kk = Some x → f jj kk = post (dd_get dref (key x))) →
  shaped a n (length xs) ∧ same_reads d dref ∧ filled a f (S jj) 0.
Proof.
  intros Hrun Hsh Hd Hf Hspec.
  destruct (decide (jj < n)) as [Hjj|Hjj].
  - destruct (fill_row_total key post f jj xs d0 a0 dref n Hsh Hjj Hd Hf Hspec)
      as (d' & a' & Hrun' & Hres).
    rewrite Hrun in Hrun'. by injection Hrun' as -> ->.
  - destruct xs as [|x xs]; simpl in Hrun.
    + injection Hrun as <- <-. split; [done|]. split; [done|].
      intros r c Hc _. destruct Hsh as (_ & Hm & _). simpl in Hm. lia.
    + exfalso. unfold fill_body at 1 in Hrun.
      destruct (dd_getitem d0 (key x)) as [v d1].
      destruct (set2 a0 jj 0 (post v)) as [a1|] eqn:Hset; simpl in Hrun; [|done].
      apply set2_Some_inv in Hset as [Hlt _]. destruct Hsh as (Hn & _). lia.
Qed.
End fill_partial.

Section port_partial.
Context {K : Type} `{!Scalar K} `{!Engine K}.
Variables (modes : list hs) (inputs Ls : list (operator K)) (ncdim : nat).

(** A turn of the second loop that ends was at a row of the arrays, and
    has filled that row. *)
Lemma port_row_partial jj Ljj pt pt' :
  Ls !! jj = Some Ljj →
  port_row modes inputs jj Ljj pt = Some pt' →
  port_inv modes inputs Ls ncdim jj pt →
  port_inv modes inputs Ls ncdim (S jj) pt' ∧ jj < ncdim.
Proof.
  intros HL Hrun ([HsC HfC] & [HsD HfD] & [Hlen HU]).
  assert (L_coeffs_at Ls jj = get_coeffs Ljj false 0%Qc) as Hc.
  { unfold L_coeffs_at. by rewrite HL. }
  unfold port_row in Hrun.
  destruct (for_enumerate _ 0 modes _) as [[d1 C1]|] eqn:Hrun1; simpl in Hrun; [|done].
  destruct (fill_row_partial (λ s, Destroy s) (λ v, v) (C_entry modes Ls) jj modes
              (get_coeffs Ljj false 0%Qc) (st_C pt) d1 C1 (L_coeffs_at Ls jj) ncdim Hrun1)
    as (HsC1 & Hd1 & HfC1); [done| |done| |].
  { intros k. by rewrite Hc. }
  { intros kk x Hx. unfold C_entry. by rewrite (mode_at_lookup _ _ _ Hx). }
  destruct (dd_getitem d1 IdentityOperator) as [v d2] eqn:Hget.
  assert (same_reads d2 (L_coeffs_at Ls jj)) as Hd2.
  { change d2 with (v, d2).2. rewrite <-Hget. by apply same_reads_getitem. }
  destruct (set1 (st_U_c pt) jj v) as [U'|] eqn:HU'; simpl in Hrun; [|done].
  destruct (for_enumerate _ 0 inputs _) as [[d3 D3]|] eqn:Hrun3; simpl in Hrun; [|done].
  destruct (fill_row_partial (λ x, x) (λ v, v) (D_input_entry inputs Ls) jj inputs
              d2 (st_D_input pt) d3 D3 (L_coeffs_at Ls jj) ncdim Hrun3)
    as (HsD3 & Hd3 & HfD3); [done..| |].
  { intros kk x Hx. unfold D_input_entry. by rewrite Hx. }
  injection Hrun as <-.
  pose proof (set1_Some_inv _ _ _ _ HU') as Hjj. rewrite Hlen in Hjj.
  split; [|done].
  do 2 (split; [done|]). simpl. split.
  - by rewrite (set1_length _ _ _ _ HU').
  - intros r Hr. destruct (decide (r = jj)) as [->|Hne].
    + rewrite (lookup_set1_eq _ _ _ _ HU'). f_equal. unfold U_c_entry.
      change v with (v, d2).1. rewrite <-Hget, dd_getitem_value. apply Hd1.
    + rewrite (lookup_set1_ne _ _ _ _ _ Hne HU'). apply HU. lia.
Qed.

(** If the second loop ends, the coupling vector has no more rows than
    there are ports, and the arrays hold its coefficients. *)
Lemma port_loop_partial pt0 pt :
  for_enumerate (port_row modes inputs) 0 Ls pt0 = Some pt →
  port_inv modes inputs Ls ncdim 0 pt0 →
  port_inv modes inputs Ls ncdim (length Ls) pt ∧ length Ls ≤ ncdim.
Proof.
  intros Hrun H0.
  apply (for_enumerate_partial (port_row modes inputs)
           (λ k s, port_inv modes inputs Ls ncdim k s ∧ k ≤ ncdim) Ls 0 pt0 pt);
    [split; [done|lia]| |done].
  intros k x s s1 Hx [Hinv _] Hb. simpl in *.
  destruct (port_row_partial k x s s1 Hx Hb Hinv). split; [done|lia].
Qed.

(** On a coupling vector with at most one row per port the second loop
    does not raise. *)
Lemma port_loop_total_le pt0 :
  length Ls ≤ ncdim → port_inv modes inputs Ls ncdim 0 pt0 →
  is_Some (for_enumerate (port_row modes inputs) 0 Ls pt0).
Proof.
  intros HLs H0.
  destruct (for_enumerate_inv (port_row modes inputs)
              (port_inv modes inputs Ls ncdim) Ls 0 pt0)
    as (pt & Hrun & Hinv); [done| |by eexists].
  intros k x s Hx Hinv. simpl in *. apply port_row_total; [done| |done].
  pose proof (lookup_lt_Some _ _ _ Hx). lia.
Qed.
End port_partial.

(** ** Placing the dynamic inputs on the ports *)

Section placing.
Context {K : Type}.
Implicit Types (ps : list (operator K * Z)) (l : list (drive K)).

Lemma py_list_setitem_ok {T : Type} (l : list T) (n : Z) (x : T) :
  py_index_ok (length l) n →
  py_list_setitem l n x = Some (<[py_index (length l) n := x]> l)
  ∧ py_index (length l) n < length l.
Proof.
  unfold py_index_ok, py_list_setitem, py_index. intros Hok.
  destruct (decide (0 ≤ n)%Z).
  - rewrite !bool_decide_eq_true_2 by lia. split; [done|lia].
  - rewrite (bool_decide_eq_false_2 (0 ≤ n < _)%Z) by lia.
    rewrite bool_decide_eq_true_2 by lia.
    rewrite (bool_decide_eq_false_2 (0 ≤ n)%Z) by lia. split; [done|lia].
Qed.

Lemma py_list_setitem_not_ok {T : Type} (l : list T) (n : Z) (x : T) :
  ¬ py_index_ok (length l) n → py_list_setitem l n x = None.
Proof.
  unfold py_index_ok, py_list_setitem. intros Hok.
  by rewrite !bool_decide_eq_false_2 by lia.
Qed.

Lemma place_cons_ok ii n ps l :
  py_index_ok (length l) n →
  place ((ii, n) :: ps) l = place ps (<[py_index (length l) n := Drive ii]> l).
Proof.
  intros Hok. unfold place; simpl.
  by rewrite (proj1 (py_list_setitem_ok l n (Drive ii) Hok)).
Qed.

Lemma place_is_Some ps l :
  is_Some (place ps l) ↔ Forall (λ p, py_index_ok (length l) p.2) ps.
Proof.
  revert l. induction ps as [|[ii n] ps IH]; intros l.
  - split; [by constructor|by eexists].
  - rewrite list.Forall_cons. simpl.
    destruct (decide (py_index_ok (length l) n)) as [Hok|Hok].
    + rewrite (place_cons_ok _ _ _ _ Hok), IH, length_insert. tauto.
    + unfold place; simpl. rewrite (py_list_setitem_not_ok _ _ _ Hok). simpl.
      split; [by intros [? ?]|tauto].
Qed.

Lemma place_Some ps l0 l :
  place ps l0 = Some l →
  length l = length l0
  ∧ (∀ i, (∀ p, p ∈ ps → py_index (length l0) p.2 ≠ i) → l !! i = l0 !! i)
  ∧ (∀ i u, l !! i = Some (Drive u) →
       l0 !! i = Some (Drive u)
       ∨ ∃ p, p ∈ ps ∧ py_index (length l0) p.2 = i ∧ p.1 = u)
  ∧ (∀ p, p ∈ ps →
       (∀ q, q ∈ ps → py_index (length l0) q.2 = py_index (length l0) p.2 → q = p) →
       l !! py_index (length l0) p.2 = Some (Drive p.1)).
Proof.
  revert l0. induction ps as [|[ii n] ps IH]; intros l0 Hrun.
  - injection Hrun as <-. split; [done|]. split; [done|]. split; [by left|].
    by intros p ?%elem_of_nil.
  - assert (py_index_ok (length l0) n) as Hok.
    { assert (is_Some (place ((ii, n) :: ps) l0)) as Hs by (by rewrite Hrun).
      apply place_is_Some in Hs. by apply list.Forall_cons in Hs as [? _]. }
    rewrite (place_cons_ok _ _ _ _ Hok) in Hrun.
    destruct (py_list_setitem_ok l0 n (Drive ii) Hok) as [_ Hlt].
    destruct (IH _ Hrun) as (Hlen & Hsame & Horig & Huniq).
    rewrite length_insert in Hlen, Hsame, Horig, Huniq.
    split; [done|]. split; [|split].
    + intros i Hi. rewrite Hsame by (intros p Hp; apply Hi; by right).
      apply list_lookup_insert_ne. apply (Hi (ii, n)). by left.
    + intros i u Hu. destruct (Horig i u Hu) as [Hl0|(p & Hp & Hpi & Hpu)].
      * destruct (decide (py_index (length l0) n = i)) as [<-|Hne].
        -- rewrite list_lookup_insert_eq in Hl0 by done. injection Hl0 as ->.
           right. exists (u, n). split; [by left|done].
        -- rewrite list_lookup_insert_ne in Hl0 by done. by left.
      * right. exists p. split; [by right|done].
    + intros p Hp Hq. apply elem_of_cons in Hp as [->|Hp].
      * simpl in *.
        destruct (decide (Exists (λ q, py_index (length l0) q.2 = py_index (length l0) n) ps))
          as [Hex|Hnex].
        -- apply list.Exists_exists in Hex as (q & Hqin & Hqi).
           assert (q = (ii, n)) as -> by (apply Hq; [by right|done]).
           apply (Huniq (ii, n) Hqin). intros q' Hq'in Hq'i. apply Hq; [by right|done].
        -- rewrite Hsame; [by apply list_lookup_insert_eq|].
           intros q Hqin Hqi. apply Hnex, list.Exists_exists. by exists q.
      * apply Huniq; [done|]. intros q Hqin. apply Hq. by right.
Qed.
End placing.

(** ** The dynamic inputs of [model_matrices] *)

Section inputs_pairing.
Context {K : Type}.

Local Instance item_le_trans : Transitive item_le.
Proof. intros x y z. unfold item_le. lia. Qed.

Local Instance item_le_total : Total item_le.
Proof. intros x y. unfold item_le. lia. Qed.

(** Sorting the items and sorting the keys give the keys in one order. *)
Lemma sorted_items_keys (dip : gmap Z string) : (sorted_items dip).*1 = sorted_keys dip.
Proof.
  unfold sorted_items, sorted_keys. apply (StronglySorted_unique Z.le).
  - apply (StronglySorted_fmap fst item_le Z.le); [done|].
    apply StronglySorted_merge_sort; apply _.
  - apply StronglySorted_merge_sort; apply _.
  - by rewrite !merge_sort_Permutation.
Qed.

Lemma zip_fmap_diag {A B C : Type} (f : A → B) (g : A → C) (l : list A) :
  zip (f <$> l) (g <$> l) = (λ x, (f x, g x)) <$> l.
Proof. induction l as [|x l IH]; simpl; [done|]. by f_equal. Qed.

(** Each input symbol is zipped with the key of its own item. *)
Lemma zip_inputs_keys (dip : gmap Z string) :
  zip (inputs_of (K:=K) dip) (sorted_keys dip) =
  (λ p, (input_symbol p.2, p.1)) <$> sorted_items dip.
Proof.
  rewrite <-sorted_items_keys. unfold inputs_of.
  rewrite <-(zip_fmap_diag (λ p, input_symbol p.2) fst).
  f_equal. apply list_fmap_ext. by intros i [n u] _.
Qed.

Lemma elem_of_sorted_items (dip : gmap Z string) n name :
  (n, name) ∈ sorted_items dip ↔ dip !! n = Some name.
Proof.
  unfold sorted_items. rewrite merge_sort_Permutation. apply elem_of_map_to_list.
Qed.

Lemma elem_of_zip_inputs_keys (dip : gmap Z string) (p : operator K * Z) :
  p ∈ zip (inputs_of (K:=K) dip) (sorted_keys dip) ↔
  ∃ name, dip !! p.2 = Some name ∧ p.1 = input_symbol name.
Proof.
  rewrite zip_inputs_keys, list_elem_of_fmap. split.
  - intros ([n name] & -> & Hin). apply elem_of_sorted_items in Hin. by exists name.
  - intros (name & Hn & Hp). exists (p.2, name). split.
    + destruct p as [u n]. simpl in *. by rewrite Hp.
    + by apply elem_of_sorted_items.
Qed.
End inputs_pairing.

Section inputs_placement.
Context {K : Type} `{!Scalar K} `{!Engine K}.
Implicit Types (slh : SLH) (dip : gmap Z string).

Lemma extend_inputs_place slh dip :
  extend_inputs slh dip =
  place (zip (inputs_of dip) (sorted_keys dip)) (replicate (cdim slh) NoDrive).
Proof. done. Qed.

(** The inputs are placed exactly when every key is an index of a port. *)
Lemma extend_inputs_is_Some slh dip :
  is_Some (extend_inputs slh dip) ↔
  ∀ n, is_Some (dip !! n) → py_index_ok (cdim slh) n.
Proof.
  rewrite extend_inputs_place, place_is_Some, length_replicate, list.Forall_forall.
  split.
  - intros Hall n [name Hn]. apply (Hall (input_symbol name, n)).
    apply elem_of_zip_inputs_keys. by exists name.
  - intros Hall p Hp. apply elem_of_zip_inputs_keys in Hp as (name & Hn & _).
    apply Hall. by exists name.
Qed.

(** X6: when the dynamic inputs are placed, [inputs_extended] has one
    entry per port; a port that no key denotes keeps the [0]; every drive in
    the list is the symbol of a named input, at the port its key denotes
    (a negative key counts from the last port); and a key that is the only
    one to denote its port puts the symbol of its name there. *)
Theorem extend_inputs_placement slh dip ext :
  extend_inputs slh dip = Some ext →
  length ext = cdim slh
  ∧ (∀ i, i < cdim slh →
       (∀ n, is_Some (dip !! n) → py_index (cdim slh) n ≠ i) →
       ext !! i = Some NoDrive)
  ∧ (∀ i u, ext !! i = Some (Drive u) →
       ∃ n name, dip !! n = Some name ∧ py_index (cdim slh) n = i
                 ∧ u = input_symbol name)
  ∧ (∀ n name, dip !! n = Some name →
       (∀ n', is_Some (dip !! n') →
          py_index (cdim slh) n' = py_index (cdim slh) n → n' = n) →
       ext !! py_index (cdim slh) n = Some (Drive (input_symbol name))).
Proof.
  rewrite extend_inputs_place. intros Hrun.
  destruct (place_Some _ _ _ Hrun) as (Hlen & Hsame & Horig & Huniq).
  rewrite length_replicate in Hlen, Hsame, Horig, Huniq.
  split; [done|]. split; [|split].
  - intros i Hi Hfree. rewrite Hsame.
    + by apply lookup_replicate_2.
    + intros p Hp. apply elem_of_zip_inputs_keys in Hp as (name & Hn & _).
      apply Hfree. by exists name.
  - intros i u Hu. destruct (Horig i u Hu) as [Hrep|(p & Hp & Hpi & Hpu)].
    + apply lookup_replicate in Hrep as [? _]. done.
    + apply elem_of_zip_inputs_keys in Hp as (name & Hn & Hsym).
      exists p.2, name. split; [done|]. split; [done|]. congruence.
  - intros n name Hn Honly.
    apply (Huniq (input_symbol name, n)).
    + apply elem_of_zip_inputs_keys. by exists name.
    + intros [u n'] Hq Hqi. simpl in *.
      apply elem_of_zip_inputs_keys in Hq as (name' & Hn' & Hu). simpl in *.
      assert (n' = n) as -> by (apply Honly; [by exists name'|done]).
      rewrite Hn in Hn'. injection Hn' as <-. by rewrite Hu.
Qed.
End inputs_placement.

(** ** More on [model_matrices] *)

Section model_more.
Context {K : Type} `{!Scalar K} `{!Engine K}.
Implicit Types (slh : SLH) (dip : gmap Z string) (r : model_matrices_result).

Lemma port_inv_init slh dip Ls :
  port_inv (modes_of slh) (inputs_of dip) Ls (cdim slh) 0
    (mk_port_arrays (zeros2 kzero (cdim slh) (length (modes_of slh)))
       (zeros2 kzero (cdim slh) (size dip)) (zeros1 kzero (cdim slh))).
Proof.
  destruct (port_shapes_init slh dip) as (HC & HD & HU).
  split; [split; [exact HC|apply filled_start]|].
  split; [split; [exact HD|apply filled_start]|].
  split; [exact HU|intros; lia].
Qed.

(** What a call that returns has computed, array by array. *)
Lemma model_matrices_Some_full slh dip flag epsilon return_eoms r :
  model_matrices slh dip flag epsilon return_eoms = Some r →
  ∃ ext st pt,
    extend_inputs slh dip = Some ext
    ∧ mode_inv (modes_of slh) (noises_of slh) (inputs_of dip)
        (eoms_of (feed_inputs slh ext) (modes_of slh) (noises_of slh)) epsilon
        (length (modes_of slh)) st
    ∧ port_inv (modes_of slh) (inputs_of dip) (slh_L_column (feed_inputs slh ext))
        (cdim slh) (length (slh_L_column (feed_inputs slh ext))) pt
    ∧ length (slh_L_column (feed_inputs slh ext)) ≤ cdim slh
    ∧ r = mk_result (st_A st) (st_B st) (st_C pt) (slh_S slh) (st_A_kerr st)
            (st_B_input st) (st_D_input pt) (st_u_c st) (st_U_c pt)
            (if return_eoms
             then Some (eoms_of (feed_inputs slh ext) (modes_of slh) (noises_of slh),
                        output_processes (feed_inputs slh ext) (noises_of slh))
             else None).
Proof.
  unfold model_matrices. intros Hrun.
  destruct (extend_inputs slh dip) as [ext|]; simpl in Hrun; [|done].
  destruct (mode_loop_runs slh dip ext epsilon) as (st & Hrun1 & Hinv).
  destruct (for_enumerate (mode_row _ _ _ _ _) _ _ _) as [st'|] eqn:Hrun1';
    simpl in Hrun; [|done].
  assert (st' = st) as -> by congruence.
  destruct (for_enumerate (port_row _ _) _ _ _) as [pt|] eqn:Hrun2;
    simpl in Hrun; [|done].
  injection Hrun as <-. exists ext, st, pt. split; [done|]. split; [done|].
  destruct (port_loop_partial _ _ _ _ _ _ Hrun2 (port_inv_init slh dip _)) as [Hpt Hle].
  split; [exact Hpt|]. split; [exact Hle|]. reflexivity.
Qed.

Lemma for_enumerate_ext {T St : Type} (body1 body2 : nat → T → St → option St) i l s :
  (∀ k x s', body1 k x s' = body2 k x s') →
  for_enumerate body1 i l s = for_enumerate body2 i l s.
Proof.
  intros Hext. revert i s. induction l as [|x l IH]; intros i s; simpl; [done|].
  rewrite Hext. destruct (body2 i x s); simpl; [apply IH|done].
Qed.

(** An array all of whose cells hold one value is the constant array. *)
Lemma zeros2_ext (a : ndarray2 K) n m z :
  shaped a n m → (∀ i j, i < n → j < m → get2 a i j = Some z) → a = zeros2 z n m.
Proof.
  destruct a as [n' m' cs]. intros (Hn & Hm & Hw) Hall. simpl in *. subst n' m'.
  unfold zeros2. f_equal. unfold wf2 in Hw; simpl in Hw.
  apply list_eq. intros idx. destruct (decide (idx < n * m)) as [Hlt|Hge].
  - rewrite lookup_replicate_2 by done.
    assert (0 < m) as Hm by (destruct m; lia).
    assert (idx = idx `div` m * m + idx `mod` m) as Hidx
      by (rewrite Nat.mul_comm; apply Nat.div_mod; lia).
    assert (idx `mod` m < m) as Hj by (apply Nat.mod_upper_bound; lia).
    assert (idx `div` m < n) as Hi.
    { apply Nat.Div0.div_lt_upper_bound. by rewrite Nat.mul_comm. }
    specialize (Hall _ _ Hi Hj). unfold get2 in Hall; simpl in Hall.
    rewrite bool_decide_eq_true_2 in Hall by done. by rewrite <-Hidx in Hall.
  - rewrite lookup_ge_None_2 by lia. symmetry. apply lookup_ge_None_2.
    rewrite length_replicate. lia.
Qed.

(** X7: the call returns exactly when every key of [dynamic_input_ports]
    is an index of a port (from the front, or negative from the end) and
    the coupling vector of the driven model has no more rows than there are
    ports; otherwise an [IndexError] ends it. *)
Theorem model_matrices_returns_iff slh dip flag epsilon return_eoms :
  is_Some (model_matrices slh dip flag epsilon return_eoms) ↔
  (∀ n, is_Some (dip !! n) → py_index_ok (cdim slh) n)
  ∧ (∀ ext, extend_inputs slh dip = Some ext →
       length (slh_L_column (feed_inputs slh ext)) ≤ cdim slh).
Proof.
  split.
  - intros [r Hrun].
    destruct (model_matrices_Some_full _ _ _ _ _ _ Hrun)
      as (ext & st & pt & Hext & _ & _ & Hle & _).
    split.
    + apply extend_inputs_is_Some. by rewrite Hext.
    + intros ext' Hext'. rewrite Hext in Hext'. by injection Hext' as <-.
  - intros [Hkeys HL]. apply extend_inputs_is_Some in Hkeys as [ext Hext].
    unfold model_matrices. rewrite Hext. simpl.
    destruct (mode_loop_runs slh dip ext epsilon) as (st & -> & _). simpl.
    destruct (port_loop_total_le (modes_of slh) (inputs_of dip)
                (slh_L_column (feed_inputs slh ext)) (cdim slh)
                (mk_port_arrays (zeros2 kzero (cdim slh) (length (modes_of slh)))
                   (zeros2 kzero (cdim slh) (size dip)) (zeros1 kzero (cdim slh)))
                (HL ext Hext) (port_inv_init slh dip _)) as [pt ->].
    by eexists.
Qed.

(** X8: in a call that returns, for every mode row [jj]: [A[jj, kk]] is
    the coefficient of [Destroy(skk)] in the coefficient map of the equation
    of motion of mode [jj], [B[jj, kk]] that of the noise symbol
    [dA/dt_{kk}] of port [kk], and [u_c[jj]] that of the identity. *)
Theorem model_matrices_linear_couplings slh dip flag epsilon return_eoms r :
  model_matrices slh dip flag epsilon return_eoms = Some r →
  ∃ ext, extend_inputs slh dip = Some ext
    ∧ ∀ jj sjj,
        modes_of slh !! jj = Some sjj →
        let coeffsjj :=
          get_coeffs (eom_of (feed_inputs slh ext) (noises_of slh) sjj) false epsilon in
        (∀ kk skk, modes_of slh !! kk = Some skk →
           get2 (r_A r) jj kk = Some (dd_get coeffsjj (Destroy skk)))
        ∧ (∀ kk, kk < cdim slh →
             get2 (r_B r) jj kk = Some (dd_get coeffsjj (noise_symbol kk)))
        ∧ r_u_c r !! jj = Some (dd_get coeffsjj IdentityOperator).
Proof.
  intros Hrun.
  destruct (model_matrices_Some_full _ _ _ _ _ _ Hrun)
    as (ext & st & pt & Hext & Hinv & _ & _ & ->).
  exists ext. split; [done|]. intros jj sjj Hjj coeffsjj. simpl.
  destruct Hinv as ([HsA HfA] & _ & [HsB HfB] & _ & [Hlen Hu]).
  pose proof (lookup_lt_Some _ _ _ Hjj) as Hlt.
  assert (coeffs_at (eoms_of (feed_inputs slh ext) (modes_of slh) (noises_of slh))
            epsilon jj = coeffsjj) as Hc.
  { unfold coeffs_at. by rewrite (eoms_of_lookup _ _ _ _ _ Hjj). }
  split; [|split].
  - intros kk skk Hkk.
    rewrite (filled_get _ _ _ _ jj kk HsA HfA); [|done|by eapply lookup_lt_Some].
    unfold A_entry. by rewrite Hc, (mode_at_lookup _ _ _ Hkk).
  - intros kk Hkk. rewrite length_noises_of in HsB.
    rewrite (filled_get _ _ _ _ jj kk HsB HfB) by done.
    unfold B_entry. rewrite Hc. unfold noises_of.
    by rewrite list_lookup_fmap, lookup_seq_lt.
  - rewrite Hu by done. unfold u_c_entry. by rewrite Hc.
Qed.

(** X9: in a call that returns, the coupling vector [L] of the driven
    model has at most [cdim] rows, and for every row [Ljj] of it, with the
    coefficient map built without truncation: [C[jj, kk]] is the
    coefficient of [Destroy(skk)], [U_c[jj]] that of the identity, and
    [D_input[jj, kk]] that of the [kk]-th input symbol; [D] is the
    scattering matrix of the model as given. *)
Theorem model_matrices_output_couplings slh dip flag epsilon return_eoms r :
  model_matrices slh dip flag epsilon return_eoms = Some r →
  ∃ ext, extend_inputs slh dip = Some ext
    ∧ length (slh_L_column (feed_inputs slh ext)) ≤ cdim slh
    ∧ r_D r = slh_S slh
    ∧ ∀ jj Ljj,
        slh_L_column (feed_inputs slh ext) !! jj = Some Ljj →
        let coeffsjj := get_coeffs Ljj false 0%Qc in
        (∀ kk skk, modes_of slh !! kk = Some skk →
           get2 (r_C r) jj kk = Some (dd_get coeffsjj (Destroy skk)))
        ∧ r_U_c r !! jj = Some (dd_get coeffsjj IdentityOperator)
        ∧ (∀ kk u_kk, inputs_of dip !! kk = Some u_kk →
             get2 (r_D_input r) jj kk = Some (dd_get coeffsjj u_kk)).
Proof.
  intros Hrun.
  destruct (model_matrices_Some_full _ _ _ _ _ _ Hrun)
    as (ext & st & pt & Hext & _ & Hinv & Hle & ->).
  exists ext. do 3 (split; [done|]). intros jj Ljj Hjj coeffsjj. simpl.
  destruct Hinv as ([HsC HfC] & [HsD HfD] & [Hlen HU]).
  pose proof (lookup_lt_Some _ _ _ Hjj) as Hlt.
  assert (L_coeffs_at (slh_L_column (feed_inputs slh ext)) jj = coeffsjj) as Hc.
  { unfold L_coeffs_at. by rewrite Hjj. }
  assert (∀ (a : ndarray2 K) f m c, shaped a (cdim slh) m →
            filled a f (length (slh_L_column (feed_inputs slh ext))) 0 → c < m →
            get2 a jj c = Some (f jj c)) as Hget.
  { intros a f m c (_ & Hm & _) Hf Hcm. apply Hf; [lia|by left]. }
  split; [|split].
  - intros kk skk Hkk.
    rewrite (Hget _ _ _ kk HsC HfC) by (by eapply lookup_lt_Some).
    unfold C_entry. by rewrite Hc, (mode_at_lookup _ _ _ Hkk).
  - rewrite HU by done. unfold U_c_entry. by rewrite Hc.
  - intros kk u_kk Hkk.
    rewrite (Hget _ _ _ kk HsD HfD) by (by eapply lookup_lt_Some).
    unfold D_input_entry. by rewrite Hc, Hkk.
Qed.
End model_more.

Section model_epsilon.
Context {K : Type} `{!Scalar K} `{!Engine K}.
Implicit Types (slh : SLH) (dip : gmap Z string) (r : model_matrices_result).

(** With no addend truncated, [get_coeffs] is [get_coeffs] without
    truncation. *)
Lemma get_coeffs_untruncated (e : operator K) (epsilon : Qc) :
  (∀ a, a ∈ addends e → kept epsilon a = true) →
  get_coeffs e false epsilon = get_coeffs e false 0%Qc.
Proof.
  intros Hkept. unfold get_coeffs. apply foldl_step_ext.
  intros a Ha. by rewrite (Hkept a Ha), kept_0.
Qed.

Lemma mode_row_untruncated modes noises inputs (eoms : list (operator K)) epsilon jj sjj st :
  (∀ eom a, eom ∈ eoms → a ∈ addends eom → kept epsilon a = true) →
  mode_row modes noises inputs eoms epsilon jj sjj st =
  mode_row modes noises inputs eoms 0%Qc jj sjj st.
Proof.
  intros Hkept. unfold mode_row. destruct (eoms !! jj) as [eom|] eqn:Heom; [|done].
  simpl. rewrite (get_coeffs_untruncated eom epsilon); [done|].
  intros a Ha. apply (Hkept eom a); [|done]. by eapply list_elem_of_lookup_2.
Qed.

(** X12: [epsilon] matters to [model_matrices] only through the addends
    it truncates: when no addend of any equation of motion fails the
    truncation test under [epsilon], the call gives what the call with
    [epsilon = 0] gives. *)
Theorem model_matrices_untruncated slh dip flag epsilon return_eoms :
  (∀ ext sjj a,
     extend_inputs slh dip = Some ext → sjj ∈ modes_of slh →
     a ∈ addends (eom_of (feed_inputs slh ext) (noises_of slh) sjj) →
     kept epsilon a = true) →
  model_matrices slh dip flag epsilon return_eoms =
  model_matrices slh dip flag 0%Qc return_eoms.
Proof.
  intros Hkept. unfold model_matrices.
  destruct (extend_inputs slh dip) as [ext|] eqn:Hext; simpl; [|done].
  rewrite (for_enumerate_ext
             (mode_row (modes_of slh) (noises_of slh) (inputs_of dip)
                (eoms_of (feed_inputs slh ext) (modes_of slh) (noises_of slh)) epsilon)
             (mode_row (modes_of slh) (noises_of slh) (inputs_of dip)
                (eoms_of (feed_inputs slh ext) (modes_of slh) (noises_of slh)) 0%Qc));
    [done|].
  intros k x s'. apply mode_row_untruncated.
  intros eom a Heom Ha. unfold eoms_of in Heom.
  apply list_elem_of_fmap in Heom as (sjj & -> & Hsjj).
  by apply (Hkept ext sjj a).
Qed.

(** X11: [return_eoms] changes none of the nine matrices.  Without it
    the result has no trailing element; with it the trailing elements are
    the equations of motion, one per mode in the order of the modes, and the
    output processes of the driven model. *)
Theorem model_matrices_return_eoms slh dip flag epsilon :
  let nine r := (r_A r, r_B r, r_C r, r_D r, r_A_kerr r, r_B_input r, r_D_input r,
                 r_u_c r, r_U_c r) in
  nine <$> model_matrices slh dip flag epsilon true
    = nine <$> model_matrices slh dip flag epsilon false
  ∧ (∀ r, model_matrices slh dip flag epsilon false = Some r → r_eoms r = None)
  ∧ (∀ r, model_matrices slh dip flag epsilon true = Some r →
       ∃ ext, extend_inputs slh dip = Some ext
         ∧ r_eoms r =
             Some (eom_of (feed_inputs slh ext) (noises_of slh) <$> modes_of slh,
                   output_processes (feed_inputs slh ext) (noises_of slh))).
Proof.
  intros nine. split; [|split].
  - unfold model_matrices.
    destruct (extend_inputs slh dip) as [ext|]; simpl; [|done].
    destruct (for_enumerate (mode_row _ _ _ _ _) _ _ _) as [st|]; simpl; [|done].
    by destruct (for_enumerate (port_row _ _) _ _ _) as [pt|].
  - intros r Hrun.
    destruct (model_matrices_Some_full _ _ _ _ _ _ Hrun) as (ext & st & pt & _ & _ & _ & _ & ->).
    done.
  - intros r Hrun.
    destruct (model_matrices_Some_full _ _ _ _ _ _ Hrun)
      as (ext & st & pt & Hext & _ & _ & _ & ->).
    by exists ext.
Qed.

(** X10: two dynamic inputs with one name share one symbol, so their
    columns of [B_input] are equal, and so are their entries of [D_input]
    in every row of the coupling vector. *)
Theorem model_matrices_same_name_columns slh dip flag epsilon return_eoms r
    (k1 k2 : nat) (n1 n2 : Z) (name : string) :
  model_matrices slh dip flag epsilon return_eoms = Some r →
  sorted_items dip !! k1 = Some (n1, name) →
  sorted_items dip !! k2 = Some (n2, name) →
  (∀ row, get2 (r_B_input r) row k1 = get2 (r_B_input r) row k2)
  ∧ ∃ ext, extend_inputs slh dip = Some ext
      ∧ ∀ jj, jj < length (slh_L_column (feed_inputs slh ext)) →
          get2 (r_D_input r) jj k1 = get2 (r_D_input r) jj k2.
Proof.
  intros Hrun H1 H2.
  destruct (model_matrices_Some_full _ _ _ _ _ _ Hrun)
    as (ext & st & pt & Hext & Hinv & Hpt & Hle & ->). simpl.
  assert (inputs_of (K:=K) dip !! k1 = Some (input_symbol name)) as Hu1
    by (unfold inputs_of; by rewrite list_lookup_fmap, H1).
  assert (inputs_of (K:=K) dip !! k2 = Some (input_symbol name)) as Hu2
    by (unfold inputs_of; by rewrite list_lookup_fmap, H2).
  pose proof (lookup_lt_Some _ _ _ Hu1) as Hk1.
  pose proof (lookup_lt_Some _ _ _ Hu2) as Hk2.
  split.
  - intros row. destruct Hinv as (_ & _ & _ & [Hsh Hf] & _).
    destruct (decide (row < length (modes_of slh))) as [Hrow|Hrow].
    + rewrite !(filled_get _ _ _ _ row _ Hsh Hf) by done.
      unfold B_input_entry. by rewrite Hu1, Hu2.
    + destruct Hsh as (Hn & _ & _). unfold get2.
      by rewrite !bool_decide_eq_false_2 by lia.
  - exists ext. split; [done|]. intros jj Hjj.
    destruct Hpt as (_ & [(_ & Hm & _) Hf] & _).
    rewrite !Hf by (rewrite ?Hm; (done || by left)).
    unfold D_input_entry. by rewrite Hu1, Hu2.
Qed.

Context `{!ScalarLaws K}.

(** X13: a model without Kerr terms has no Kerr coupling: when no addend
    of any equation of motion has a term
    [Create(skk) * Destroy(skk) * Destroy(sjj)], the array [A_kerr] that the
    call returns is all zeros. *)
Theorem model_matrices_no_kerr slh dip flag epsilon return_eoms r :
  model_matrices slh dip flag epsilon return_eoms = Some r →
  (∀ ext sjj skk a,
     extend_inputs slh dip = Some ext → sjj ∈ modes_of slh → skk ∈ modes_of slh →
     a ∈ addends (eom_of (feed_inputs slh ext) (noises_of slh) sjj) →
     term_of a ≠ kerr_term skk sjj) →
  r_A_kerr r = zeros2 kzero (length (modes_of slh)) (length (modes_of slh)).
Proof.
  intros Hrun Hlinear.
  destruct (model_matrices_Some_full _ _ _ _ _ _ Hrun)
    as (ext & st & pt & Hext & Hinv & _ & _ & ->). simpl.
  destruct Hinv as (_ & [Hsh Hf] & _).
  apply zeros2_ext; [done|]. intros jj kk Hjj Hkk.
  rewrite (filled_get _ _ _ _ jj kk Hsh Hf) by done. f_equal.
  destruct (lookup_lt_is_Some_2 (modes_of slh) jj Hjj) as [sjj Hsjj].
  destruct (lookup_lt_is_Some_2 (modes_of slh) kk Hkk) as [skk Hskk].
  unfold A_kerr_entry, coeffs_at.
  rewrite (eoms_of_lookup _ _ _ _ _ Hsjj), (mode_at_lookup _ _ _ Hsjj),
    (mode_at_lookup _ _ _ Hskk). simpl.
  rewrite get_coeffs_get, contributions_nil; [apply kdiv_0|].
  intros a Ha Ht. exfalso.
  apply (Hlinear ext sjj skk a Hext); [by eapply list_elem_of_lookup_2..|done|done].
Qed.
End model_epsilon.

(** ** More on [prepare_sde] *)

Section complex_facts.
Local Open Scope Qc_scope.

Lemma Cx_ext (z w : Cx) : Re z = Re w → Im z = Im w → z = w.
Proof. destruct z, w; simpl; congruence. Qed.

Lemma C_mul_0_l z : C.mul C.zero z = C.zero.
Proof. apply Cx_ext; simpl; ring. Qed.

Lemma C_mul_0_r z : C.mul z C.zero = C.zero.
Proof. apply Cx_ext; simpl; ring. Qed.

Lemma C_sub_0_r z : C.sub z C.zero = z.
Proof. apply Cx_ext; simpl; ring. Qed.

Lemma C_add_zero_r z : C.add z C.zero = z.
Proof. apply Cx_ext; simpl; ring. Qed.

Lemma csum_zero (f : nat → Cx) (n : nat) :
  (∀ k : nat, (k < n)%nat → f k = C.zero) → csum f n = C.zero.
Proof.
  induction n as [|n IH]; intros Hf; simpl; [done|].
  rewrite IH by (intros k Hk; apply Hf; lia). rewrite Hf by lia. apply C_add_zero_r.
Qed.
End complex_facts.

Section sde_more.
Implicit Types (M : numeric_model_matrices) (a : list Cx).

(** The drift as a list, component by component. *)
Lemma sde_f_value M (input_fn : Qc → list Cx) a (t : Qc) (ncav ninputs : nat) :
  shaped (n_A M) ncav ncav →
  shaped (n_A_kerr M) ncav ncav →
  shaped (n_B_input M) ncav ninputs →
  length (ravel (n_u_c M)) = ncav →
  length a = ncav →
  length (input_fn t) = ninputs →
  SDE.f M input_fn a t = Some
    ((λ i,
        C.add
          (C.add
             (C.sub (matvec (n_A M) (component a) i)
                (C.mul
                   (C.mul C.two_j
                      (matvec (n_A_kerr M)
                         (λ k, C.mul (C.conjugate (component a k)) (component a k)) i))
                   (component a i)))
             (component (ravel (n_u_c M)) i))
          (matvec (n_B_input M) (component (input_fn t)) i)) <$> seq 0 ncav).
Proof.
  intros HA HK HB Hu Ha Hin. unfold SDE.f.
  destruct (dot_entries (n_A M) a ncav ncav HA Ha) as (Aa & -> & HlAa & HAa). simpl.
  destruct (elementwise_same_length C.mul (C.conjugate <$> a) a) as (-> & Hln & Hn);
    [by rewrite length_fmap|]. simpl.
  rewrite length_fmap in Hln, Hn.
  destruct (dot_entries (n_A_kerr M) (zip_with C.mul (C.conjugate <$> a) a) ncav ncav HK)
    as (kn & -> & Hlkn & Hkn); [lia|]. simpl.
  assert (length (np.scale C.two_j kn) = ncav) as Hls
    by (unfold np.scale; rewrite length_fmap; lia).
  destruct (elementwise_same_length C.mul (np.scale C.two_j kn) a) as (-> & Hlk & Hk);
    [lia|]. simpl.
  set (kerr := zip_with C.mul (np.scale C.two_j kn) a) in *.
  destruct (elementwise_same_length C.sub Aa kerr) as (-> & Hld & Hd); [lia|]. simpl.
  set (d1 := zip_with C.sub Aa kerr) in *.
  destruct (elementwise_same_length C.add d1 (ravel (n_u_c M))) as (-> & Hld2 & Hd2);
    [lia|]. simpl.
  set (d2 := zip_with C.add d1 (ravel (n_u_c M))) in *.
  destruct (dot_entries (n_B_input M) (input_fn t) ncav ninputs HB Hin)
    as (Bu & -> & HlBu & HBu). simpl.
  destruct (elementwise_same_length C.add d2 Bu) as (-> & Hl & Hfin); [lia|].
  f_equal. apply list_eq. intros i.
  destruct (decide (i < ncav)) as [Hi|Hi].
  - rewrite Hfin by lia. rewrite list_lookup_fmap, lookup_seq_lt by done. simpl. f_equal.
    rewrite (component_lookup _ _ _ (HBu i Hi)). f_equal.
    rewrite (component_lookup _ _ _ (Hd2 i ltac:(lia))). f_equal.
    rewrite (component_lookup _ _ _ (Hd i ltac:(lia))).
    rewrite (component_lookup _ _ _ (HAa i Hi)). f_equal.
    rewrite (component_lookup _ _ _ (Hk i ltac:(lia))). f_equal.
    unfold np.scale. rewrite component_fmap by lia.
    rewrite (component_lookup _ _ _ (Hkn i Hi)). f_equal.
    unfold matvec. apply csum_ext. intros k Hk'. f_equal.
    destruct HK as (_ & HKc & _).
    rewrite (component_lookup _ _ _ (Hn k ltac:(lia))).
    by rewrite component_fmap by lia.
  - rewrite lookup_ge_None_2 by lia. symmetry. apply lookup_ge_None_2.
    rewrite length_fmap, length_seq. lia.
Qed.

Lemma dot_Some_inv (m : ndarray2 Cx) (v w : list Cx) :
  np.dot m v = Some w → length v = ncols m.
Proof. unfold np.dot. case_decide; [done|discriminate]. Qed.

(** X14: on matrices of the shapes of [ncav] modes and [ninputs] inputs
    the drift returns exactly when the state has [ncav] components and the
    input function gives [ninputs] values; otherwise a matrix product
    raises. *)
Theorem prepare_sde_drift_returns_iff M (input_fn : Qc → list Cx) a (t : Qc)
    (ncav ninputs : nat) :
  shaped (n_A M) ncav ncav →
  shaped (n_A_kerr M) ncav ncav →
  shaped (n_B_input M) ncav ninputs →
  length (ravel (n_u_c M)) = ncav →
  is_Some ((SDE.prepare_sde M input_fn).1 a t)
  ↔ length a = ncav ∧ length (input_fn t) = ninputs.
Proof.
  intros HA HK HB Hu. simpl. split.
  - intros [da Hrun]. unfold SDE.f in Hrun.
    destruct (np.dot (n_A M) a) as [Aa|] eqn:HAa; simpl in Hrun; [|done].
    apply dot_Some_inv in HAa. destruct HA as (_ & HAc & _).
    split; [congruence|].
    destruct (np.elementwise C.mul _ a) as [n|]; simpl in Hrun; [|done].
    destruct (np.dot (n_A_kerr M) n) as [kn|]; simpl in Hrun; [|done].
    destruct (np.elementwise C.mul _ a) as [kerr|]; simpl in Hrun; [|done].
    destruct (np.elementwise C.sub Aa kerr) as [d1|]; simpl in Hrun; [|done].
    destruct (np.elementwise C.add d1 _) as [d2|]; simpl in Hrun; [|done].
    destruct (np.dot (n_B_input M) (input_fn t)) as [Bu|] eqn:HBu; simpl in Hrun; [|done].
    apply dot_Some_inv in HBu. destruct HB as (_ & HBc & _). congruence.
  - intros [Ha Hin]. rewrite (sde_f_value M input_fn a t ncav ninputs) by done.
    by eexists.
Qed.

(** X15: without Kerr coupling the drift is linear: when [A_kerr] is all
    zeros, component [i] of the drift is [(A a)_i + u_c_i + (B_input u)_i]. *)
Theorem prepare_sde_drift_without_kerr M (input_fn : Qc → list Cx) a (t : Qc)
    (ncav ninputs : nat) :
  shaped (n_A M) ncav ncav →
  n_A_kerr M = zeros2 C.zero ncav ncav →
  shaped (n_B_input M) ncav ninputs →
  length (ravel (n_u_c M)) = ncav →
  length a = ncav →
  length (input_fn t) = ninputs →
  ∃ da, (SDE.prepare_sde M input_fn).1 a t = Some da
    ∧ length da = ncav
    ∧ ∀ i, i < ncav →
        da !! i = Some
          (C.add
             (C.add (matvec (n_A M) (component a) i) (component (ravel (n_u_c M)) i))
             (matvec (n_B_input M) (component (input_fn t)) i)).
Proof.
  intros HA HK HB Hu Ha Hin. simpl.
  assert (shaped (n_A_kerr M) ncav ncav) as HKs.
  { rewrite HK. repeat split. apply wf2_zeros2. }
  rewrite (sde_f_value M input_fn a t ncav ninputs) by done.
  eexists. split; [done|]. split; [by rewrite length_fmap, length_seq|].
  intros i Hi. rewrite list_lookup_fmap, lookup_seq_lt by done. simpl. f_equal.
  f_equal. f_equal.
  assert (matvec (n_A_kerr M)
            (λ k, C.mul (C.conjugate (component a k)) (component a k)) i = C.zero) as ->.
  { unfold matvec. apply csum_zero. intros k Hk.
    assert (entry (n_A_kerr M) i k = C.zero) as ->; [|apply C_mul_0_l].
    unfold entry. rewrite HK in *. simpl in Hk.
    unfold get2, zeros2; simpl. rewrite bool_decide_eq_true_2 by done.
    rewrite lookup_replicate_2; [done|]. by apply cell_index_lt. }
  by rewrite C_mul_0_r, C_mul_0_l, C_sub_0_r.
Qed.
End sde_more.

(** ** [model_matrices_complex] *)

Section complex_more.
Context {K : Type} `{!Scalar K} `{!Engine K}.
Variable Matrix_astype_complex : Matrix → option (ndarray Cx).
Implicit Types (slh : SLH) (dip : gmap Z string) (r : model_matrices_result).


Lemma astype_Array2 (a : ndarray2 K) arr :
  astype_complex Matrix_astype_complex (Array2 a) = Some arr ↔ ∃ A, converted2 a A ∧ arr = Arr2 A.
Proof.
  simpl. split.
  - destruct (mapM to_complex (cells a)) as [cs|] eqn:Hcs; simpl; [|done].
    intros [= <-]. eexists. split; [|done]. by repeat split.
  - intros ([n m cs] & (Hn & Hm & Hcs) & ->). simpl in *. rewrite Hcs. simpl.
    by rewrite Hn, Hm.
Qed.

Lemma astype_Array1 (v : list K) arr :
  astype_complex Matrix_astype_complex (Array1 v) = Some arr
  ↔ ∃ u, converted1 v u ∧ arr = Arr1 u.
Proof.
  simpl. unfold converted1. split.
  - destruct (mapM to_complex v) as [cs|]; simpl; [|done]. intros [= <-]. by eexists.
  - intros (u & -> & ->). done.
Qed.

(** The list that [model_matrices_complex] builds from the nine converted
    arrays and the tuple. *)
Lemma mmc_unfold slh dip flag epsilon return_eoms :
  model_matrices_complex Matrix_astype_complex slh dip flag epsilon return_eoms =
  r ← model_matrices slh dip flag epsilon return_eoms;
  arrs ← mapM (astype_complex Matrix_astype_complex) (take 9 (as_tuple r));
  Some ((Numeric <$> arrs) ++ (Passed <$> drop 9 (as_tuple r))).
Proof.
  unfold model_matrices_complex.
  destruct (model_matrices slh dip flag epsilon return_eoms) as [r|]; simpl; [|done].
  unfold as_tuple. destruct (r_eoms r) as [[eoms dAps]|]; simpl.
  - done.
  - match goal with |- ?m ≫= _ = _ => destruct m as [arrs|] end; simpl; [|done].
    by rewrite app_nil_r.
Qed.

(** The nine conversions of a call that returns, one by one. *)
Lemma mmc_Some slh dip flag epsilon return_eoms out :
  model_matrices_complex Matrix_astype_complex slh dip flag epsilon return_eoms = Some out
  ↔ ∃ r A B C D A_kerr B_input D_input u_c U_c,
      model_matrices slh dip flag epsilon return_eoms = Some r
      ∧ converted2 (r_A r) A ∧ converted2 (r_B r) B ∧ converted2 (r_C r) C
      ∧ Matrix_astype_complex (r_D r) = Some D
      ∧ converted2 (r_A_kerr r) A_kerr ∧ converted2 (r_B_input r) B_input
      ∧ converted2 (r_D_input r) D_input
      ∧ converted1 (r_u_c r) u_c ∧ converted1 (r_U_c r) U_c
      ∧ out = [Numeric (Arr2 A); Numeric (Arr2 B); Numeric (Arr2 C); Numeric D;
               Numeric (Arr2 A_kerr); Numeric (Arr2 B_input); Numeric (Arr2 D_input);
               Numeric (Arr1 u_c); Numeric (Arr1 U_c)]
              ++ (Passed <$> drop 9 (as_tuple r)).
Proof.
  rewrite mmc_unfold. split.
  - intros (r & Hr & (arrs & Harrs & [= <-])%bind_Some)%bind_Some.
    change (take 9 (as_tuple r)) with
      [Array2 (r_A r); Array2 (r_B r); Array2 (r_C r); MatrixObject (r_D r);
       Array2 (r_A_kerr r); Array2 (r_B_input r); Array2 (r_D_input r);
       Array1 (r_u_c r); Array1 (r_U_c r)] in Harrs.
    apply mapM_Some in Harrs.
    repeat match goal with
           | H : Forall2 _ (_ :: _) _ |- _ => apply Forall2_cons_inv_l in H as (? & ? & ? & ? & ->)
           | H : Forall2 _ [] _ |- _ => apply Forall2_nil_inv_l in H as ->
           end.
    repeat match goal with
           | H : astype_complex _ (Array2 _) = Some _ |- _ =>
               apply astype_Array2 in H as (? & ? & ->)
           | H : astype_complex _ (Array1 _) = Some _ |- _ =>
               apply astype_Array1 in H as (? & ? & ->)
           end.
    by eexists r, _, _, _, _, _, _, _, _, _.
  - intros (r & A & B & C0 & D & Ak & Bi & Di & u & U & Hr & HA & HB & HC & HD & HAk & HBi
            & HDi & Hu & HU & ->).
    apply bind_Some. exists r. split; [done|].
    apply bind_Some.
    exists [Arr2 A; Arr2 B; Arr2 C0; D; Arr2 Ak; Arr2 Bi; Arr2 Di; Arr1 u; Arr1 U].
    split; [|done].
    change (take 9 (as_tuple r)) with
      [Array2 (r_A r); Array2 (r_B r); Array2 (r_C r); MatrixObject (r_D r);
       Array2 (r_A_kerr r); Array2 (r_B_input r); Array2 (r_D_input r);
       Array1 (r_u_c r); Array1 (r_U_c r)].
    apply mapM_Some.
    repeat (apply Forall2_cons_2;
            [first [apply astype_Array2; by eexists
                   |apply astype_Array1; by eexists
                   |exact HD]|]).
    apply Forall2_nil_2.
Qed.

(** X17: [model_matrices_complex] returns exactly when [model_matrices]
    returns, [slh.S] converts, and every entry of the other eight arrays
    is a number that [complex()] accepts: one symbolic coefficient left in
    any of them makes the call raise. *)
Theorem model_matrices_complex_returns_iff slh dip flag epsilon return_eoms :
  is_Some (model_matrices_complex Matrix_astype_complex slh dip flag epsilon return_eoms)
  ↔ ∃ r, model_matrices slh dip flag epsilon return_eoms = Some r
       ∧ is_Some (Matrix_astype_complex (slh_S slh))
       ∧ Forall (λ x, is_Some (to_complex x))
           (cells (r_A r) ++ cells (r_B r) ++ cells (r_C r) ++ cells (r_A_kerr r)
            ++ cells (r_B_input r) ++ cells (r_D_input r) ++ r_u_c r ++ r_U_c r).
Proof.
  split.
  - intros [out Hrun].
    apply mmc_Some in Hrun as (r & A & B & C0 & D & Ak & Bi & Di & u & U & Hr & HA & HB & HC
                               & HD & HAk & HBi & HDi & Hu & HU & _).
    exists r. split; [done|].
    assert (r_D r = slh_S slh) as ED.
    { destruct (model_matrices_Some_full _ _ _ _ _ _ Hr) as (? & ? & ? & _ & _ & _ & _ & ->).
      done. }
    split; [rewrite <- ED; by eexists|].
    destruct HA as (_ & _ & HA), HB as (_ & _ & HB), HC as (_ & _ & HC),
      HAk as (_ & _ & HAk), HBi as (_ & _ & HBi), HDi as (_ & _ & HDi).
    rewrite !list.Forall_app.
    repeat split; apply (mapM_is_Some_1 to_complex); by eexists.
  - intros (r & Hr & [D HD] & Hall).
    rewrite !list.Forall_app in Hall.
    destruct Hall as (HA & HB & HC & HAk & HBi & HDi & Hu & HU).
    apply (mapM_is_Some_2 to_complex) in HA as [A HA], HB as [B HB], HC as [C0 HC],
      HAk as [Ak HAk], HBi as [Bi HBi], HDi as [Di HDi], Hu as [u Hu], HU as [U HU].
    assert (r_D r = slh_S slh) as ED.
    { destruct (model_matrices_Some_full _ _ _ _ _ _ Hr) as (? & ? & ? & _ & _ & _ & _ & ->).
      done. }
    eexists. apply mmc_Some.
    exists r, (mk_ndarray2 (nrows (r_A r)) (ncols (r_A r)) A),
      (mk_ndarray2 (nrows (r_B r)) (ncols (r_B r)) B),
      (mk_ndarray2 (nrows (r_C r)) (ncols (r_C r)) C0), D,
      (mk_ndarray2 (nrows (r_A_kerr r)) (ncols (r_A_kerr r)) Ak),
      (mk_ndarray2 (nrows (r_B_input r)) (ncols (r_B_input r)) Bi),
      (mk_ndarray2 (nrows (r_D_input r)) (ncols (r_D_input r)) Di), u, U.
    split; [done|]. unfold converted2, converted1. simpl.
    rewrite ED. by repeat (split; [done|]).
Qed.

End complex_more.

(** ** The further properties on the stand-in engine *)

Module FurtherExamples.
Import Mock MockLaws Inputs.

Lemma modes_of_kerr_cavity : modes_of kerr_cavity = [cav].
Proof. vm_compute. reflexivity. Defined.

Lemma modes_of_linear_cavity : modes_of linear_cavity = [cav].
Proof. vm_compute. reflexivity. Defined.

Lemma kerr_cavity_runs :
  is_Some (model_matrices kerr_cavity one_input true eps0 false).
Proof.
  destruct (model_matrices kerr_cavity one_input true eps0 false) eqn:Hrun; [done|].
  vm_compute in Hrun. discriminate Hrun.
Defined.

Lemma kerr_cavity_twin_runs :
  is_Some (model_matrices kerr_cavity twin_inputs true eps0 false).
Proof.
  destruct (model_matrices kerr_cavity twin_inputs true eps0 false) eqn:Hrun; [done|].
  vm_compute in Hrun. discriminate Hrun.
Defined.

Lemma linear_cavity_runs :
  is_Some (model_matrices linear_cavity one_input true eps0 false).
Proof.
  destruct (model_matrices linear_cavity one_input true eps0 false) eqn:Hrun; [done|].
  vm_compute in Hrun. discriminate Hrun.
Defined.

(** The terms [a] and [b] of [0.001 a + 5 b] are distinct. *)
Lemma get_coeffs_distinct_terms_witness :
  NoDup (term_of <$> addends small_a_plus_b)
  ∧ (∀ a, a ∈ addends small_a_plus_b →
       dd_lookup (get_coeffs small_a_plus_b false eps) (term_of a) =
         if kept eps a then Some (coeff_of a) else None)
  ∧ (∀ t, t ∉ term_of <$> addends small_a_plus_b →
       dd_lookup (get_coeffs small_a_plus_b false eps) t = None
       ∧ dd_get (get_coeffs small_a_plus_b false eps) t = kzero).
Proof.
  assert (NoDup (term_of <$> addends small_a_plus_b)) as Hnd.
  { apply (bool_decide_eq_true_1 _). vm_compute. reflexivity. }
  split; [exact Hnd|].
  exact (get_coeffs_distinct_terms small_a_plus_b eps Hnd).
Defined.

Lemma get_coeffs_nonpositive_epsilon_witness :
  (eps_neg ≤ 0)%Qc
  ∧ get_coeffs small_a_plus_b false eps_neg = get_coeffs small_a_plus_b false 0%Qc.
Proof.
  assert (eps_neg ≤ 0)%Qc as Hle by (vm_compute; discriminate).
  split; [exact Hle|].
  exact (get_coeffs_nonpositive_epsilon small_a_plus_b false eps_neg Hle).
Defined.

Lemma get_coeffs_order_independent_witness :
  addends small_a_plus_b ≡ₚ addends b_plus_small_a
  ∧ ∀ t, dd_get (get_coeffs small_a_plus_b false eps) t
         = dd_get (get_coeffs b_plus_small_a false eps) t
         ∧ (t ∈ dd_keys (get_coeffs small_a_plus_b false eps)
            ↔ t ∈ dd_keys (get_coeffs b_plus_small_a false eps)).
Proof.
  assert (addends small_a_plus_b ≡ₚ addends b_plus_small_a) as Hperm.
  { simpl. apply perm_swap. }
  split; [exact Hperm|].
  exact (get_coeffs_order_independent small_a_plus_b b_plus_small_a eps Hperm).
Defined.

Lemma get_coeffs_epsilon_monotone_witness :
  (eps0 ≤ eps)%Qc
  ∧ (∀ a : operator scalar, kept eps a = true → kept eps0 a = true)
  ∧ ∀ t, t ∈ dd_keys (get_coeffs small_a_plus_b false eps) →
         t ∈ dd_keys (get_coeffs small_a_plus_b false eps0).
Proof.
  assert (eps0 ≤ eps)%Qc as Hle by (vm_compute; discriminate).
  split; [exact Hle|].
  exact (get_coeffs_epsilon_monotone small_a_plus_b false eps0 eps Hle).
Defined.

(** The one input of the Kerr cavity goes to its one port. *)
Lemma extend_inputs_placement_witness :
  ∃ ext, extend_inputs kerr_cavity one_input = Some ext
    ∧ length ext = 1
    ∧ ext !! py_index 1 0 = Some (Drive (input_symbol "in")).
Proof.
  destruct (extend_inputs kerr_cavity one_input) as [ext|] eqn:Hext;
    [|vm_compute in Hext; discriminate Hext].
  exists ext. split; [reflexivity|].
  destruct (extend_inputs_placement kerr_cavity one_input ext Hext) as (Hlen & _ & _ & Hput).
  split; [exact Hlen|].
  apply (Hput 0%Z "in"); [reflexivity|].
  intros n' [name Hn'] _.
  destruct (decide (n' = 0%Z)) as [->|Hne]; [reflexivity|].
  unfold one_input in Hn'. rewrite lookup_singleton_ne in Hn' by done. discriminate Hn'.
Defined.

Lemma model_matrices_linear_couplings_witness :
  ∃ r ext, model_matrices kerr_cavity one_input true eps0 false = Some r
    ∧ extend_inputs kerr_cavity one_input = Some ext
    ∧ get2 (r_A r) 0 0
      = Some (dd_get (get_coeffs (eom_of (feed_inputs kerr_cavity ext)
                                    (noises_of kerr_cavity) cav) false eps0) a_c)
    ∧ get2 (r_B r) 0 0
      = Some (dd_get (get_coeffs (eom_of (feed_inputs kerr_cavity ext)
                                    (noises_of kerr_cavity) cav) false eps0)
                (noise_symbol 0)).
Proof.
  destruct kerr_cavity_runs as [r Hrun].
  destruct (model_matrices_linear_couplings kerr_cavity one_input true eps0 false r Hrun)
    as (ext & Hext & Hrows).
  exists r, ext. split; [exact Hrun|]. split; [exact Hext|].
  destruct (Hrows 0 cav eq_refl) as (HA & HB & _).
  split; [exact (HA 0 cav eq_refl)|].
  apply (HB 0). vm_compute. reflexivity.
Defined.

Lemma model_matrices_output_couplings_witness :
  ∃ r ext, model_matrices kerr_cavity one_input true eps0 false = Some r
    ∧ extend_inputs kerr_cavity one_input = Some ext
    ∧ length (slh_L_column (feed_inputs kerr_cavity ext)) ≤ cdim kerr_cavity
    ∧ r_D r = slh_S kerr_cavity.
Proof.
  destruct kerr_cavity_runs as [r Hrun].
  destruct (model_matrices_output_couplings kerr_cavity one_input true eps0 false r Hrun)
    as (ext & Hext & Hle & HD & _).
  exists r, ext. split; [exact Hrun|]. split; [exact Hext|]. split; [exact Hle|exact HD].
Defined.

(** The keys [-1] and [0] give two inputs of one name in the Kerr cavity. *)
Lemma model_matrices_same_name_columns_witness :
  ∃ r, model_matrices kerr_cavity twin_inputs true eps0 false = Some r
    ∧ sorted_items twin_inputs !! 0 = Some ((-1)%Z, "in")
    ∧ sorted_items twin_inputs !! 1 = Some (0%Z, "in")
    ∧ ∀ row, get2 (r_B_input r) row 0 = get2 (r_B_input r) row 1.
Proof.
  destruct kerr_cavity_twin_runs as [r Hrun]. exists r. split; [exact Hrun|].
  assert (sorted_items twin_inputs !! 0 = Some ((-1)%Z, "in")) as H0
    by (vm_compute; reflexivity).
  assert (sorted_items twin_inputs !! 1 = Some (0%Z, "in")) as H1
    by (vm_compute; reflexivity).
  split; [exact H0|]. split; [exact H1|].
  exact (proj1 (model_matrices_same_name_columns kerr_cavity twin_inputs true eps0 false r
                  0 1 (-1)%Z 0%Z "in" Hrun H0 H1)).
Defined.

(** Every coefficient of the Kerr cavity is larger than [0.01]. *)
Lemma model_matrices_untruncated_witness :
  model_matrices kerr_cavity one_input true eps false
  = model_matrices kerr_cavity one_input true 0%Qc false.
Proof.
  apply model_matrices_untruncated.
  intros ext sjj a Hext Hs Ha.
  vm_compute in Hext. injection Hext as <-.
  rewrite modes_of_kerr_cavity in Hs. apply list_elem_of_singleton in Hs as ->.
  apply list_elem_of_In in Ha. vm_compute in Ha.
  destruct Ha as [<-|[<-|[<-|[<-|[]]]]]; vm_compute; reflexivity.
Defined.

Lemma model_matrices_no_kerr_witness :
  ∃ r, model_matrices linear_cavity one_input true eps0 false = Some r
    ∧ r_A_kerr r = zeros2 kzero 1 1.
Proof.
  destruct linear_cavity_runs as [r Hrun]. exists r. split; [exact Hrun|].
  apply (model_matrices_no_kerr linear_cavity one_input true eps0 false r Hrun).
  intros ext sjj skk a Hext Hs Hk Ha.
  vm_compute in Hext. injection Hext as <-.
  rewrite modes_of_linear_cavity in Hs, Hk.
  apply list_elem_of_singleton in Hs as ->. apply list_elem_of_singleton in Hk as ->.
  apply list_elem_of_In in Ha. vm_compute in Ha.
  destruct Ha as [<-|[<-|[<-|[]]]]; vm_compute; discriminate.
Defined.

Lemma prepare_sde_drift_returns_iff_witness :
  shaped (n_A two_modes) 2 2
  ∧ shaped (n_A_kerr two_modes) 2 2
  ∧ shaped (n_B_input two_modes) 2 0
  ∧ (is_Some ((SDE.prepare_sde two_modes no_input).1 [re 1; re 2] (Q2Qc 0))
     ↔ length [re 1; re 2] = 2 ∧ length (no_input (Q2Qc 0)) = 0).
Proof.
  assert (shaped (n_A two_modes) 2 2) as HA by (by repeat split).
  assert (shaped (n_A_kerr two_modes) 2 2) as HK by (by repeat split).
  assert (shaped (n_B_input two_modes) 2 0) as HB by (by repeat split).
  do 3 (split; [done|]).
  exact (prepare_sde_drift_returns_iff two_modes no_input [re 1; re 2] (Q2Qc 0) 2 0
           HA HK HB eq_refl).
Defined.

Lemma prepare_sde_drift_without_kerr_witness :
  shaped (n_A two_modes_linear) 2 2
  ∧ n_A_kerr two_modes_linear = zeros2 C.zero 2 2
  ∧ shaped (n_B_input two_modes_linear) 2 0
  ∧ ∃ da, (SDE.prepare_sde two_modes_linear no_input).1 [re 1; re 2] (Q2Qc 0) = Some da
      ∧ length da = 2.
Proof.
  assert (shaped (n_A two_modes_linear) 2 2) as HA by (by repeat split).
  assert (shaped (n_B_input two_modes_linear) 2 0) as HB by (by repeat split).
  split; [done|]. split; [reflexivity|]. split; [done|].
  destruct (prepare_sde_drift_without_kerr two_modes_linear no_input [re 1; re 2] (Q2Qc 0)
              2 0 HA eq_refl HB eq_refl eq_refl eq_refl) as (da & Hrun & Hlen & _).
  exists da. by split.
Defined.

End FurtherExamples.
